(** * hw09: BinarySearchTree<T> over a store of heap nodes

    A shallow embedding of [cppclass::BinarySearchTree] (hw09.h).  Nodes live
    in a store addressed by positive numbers; a [Node*] is an optional
    address.  [new] takes the next unused address, [delete] drops the cell, and
    reading through a pointer whose cell is gone has no defined result.  The
    element type [T] is instantiated at the integers with their usual order.
    [print] only writes to the output stream and is left out. *)

From stdpp Require Import base option list sorting gmap.
From Stdlib Require Import ZArith Lia.

Open Scope Z_scope.

(** ** Outcomes and the store monad *)

Inductive outcome (A : Type) : Type :=
| Ok (a : A)
| Undefined   (* a pointer without a live node behind it was used *)
| OutOfFuel.  (* a loop or recursion did not finish within its budget *)
Arguments Ok {A} a.
Arguments Undefined {A}.
Arguments OutOfFuel {A}.

Definition addr := positive.
Definition ptr := option addr.   (* nullptr is None *)

Record Node := mkNode { data : Z; right : ptr; left : ptr }.

Record memory := mkMemory { cells : gmap addr Node; brk : addr }.

Definition M (A : Type) : Type := memory → outcome (A * memory).

Definition ret {A} (a : A) : M A := λ m, Ok (a, m).

Definition bind {A B} (x : M A) (k : A → M B) : M B :=
  λ m, match x m with
       | Ok (a, m') => k a m'
       | Undefined => Undefined
       | OutOfFuel => OutOfFuel
       end.

Definition undefined {A} : M A := λ _, Undefined.
Definition out_of_fuel {A} : M A := λ _, OutOfFuel.

Notation "'let*' x ':=' e 'in' k" := (bind e (λ x, k))
  (at level 10, x pattern, e at level 100, k at level 200).
Notation "e ';;' k" := (bind e (λ _, k))
  (at level 100, k at level 200, right associativity).

(** Budget for the pointer-chasing loops: a walk over distinct live cells
    cannot be longer than the number of cells. *)
Definition budget (m : memory) : nat := S (size (cells m)).
Definition get_budget : M nat := λ m, Ok (budget m, m).

(** ** Node access *)

(** [*p]: defined only when [p] points to a live cell. *)
Definition deref (p : ptr) : M Node :=
  λ m, match p with
       | None => Undefined
       | Some a => match cells m !! a with
                   | Some n => Ok (n, m)
                   | None => Undefined
                   end
       end.

Definition store (p : ptr) (f : Node → Node) : M unit :=
  let* n := deref p in
  λ m, match p with
       | Some a => Ok (tt, mkMemory (<[a := f n]> (cells m)) (brk m))
       | None => Undefined
       end.

Definition set_data (p : ptr) (v : Z) : M unit :=
  store p (λ n, mkNode v (right n) (left n)).
Definition set_right (p q : ptr) : M unit :=
  store p (λ n, mkNode (data n) q (left n)).
Definition set_left (p q : ptr) : M unit :=
  store p (λ n, mkNode (data n) (right n) q).

(** [new Node(val)]: both links start as nullptr. *)
Definition new_Node (val : Z) : M ptr :=
  λ m, Ok (Some (brk m),
           mkMemory (<[brk m := mkNode val None None]> (cells m)) (Pos.succ (brk m))).

(** [delete p]: releases the cell; nothing else is written, so every pointer
    that held [p] keeps holding it. *)
Definition delete (p : ptr) : M unit :=
  match p with
  | None => ret tt
  | Some a => λ m, match cells m !! a with
                   | Some _ => Ok (tt, mkMemory (base.delete a (cells m)) (brk m))
                   | None => Undefined
                   end
  end.

(** ** The tree object *)

Definition SIZE_MAX : Z := 2 ^ 64 - 1.
Definition size_incr (s : Z) : Z := (s + 1) mod 2 ^ 64.
Definition size_decr (s : Z) : Z := (s - 1) mod 2 ^ 64.

Record BinarySearchTree := mkBST { m_root : ptr; m_size : Z }.

(** [BinarySearchTree()] *)
Definition BinarySearchTree_default : BinarySearchTree := mkBST None 0.

Definition initial_memory : memory := mkMemory ∅ 1%positive.

(** [bool insert(const T &value)] *)
Fixpoint insert_loop (fuel : nat) (this : BinarySearchTree) (value : Z) (current : ptr)
  : M (bool * BinarySearchTree) :=
  match fuel with
  | O => out_of_fuel
  | S fuel' =>
    match current with
    | None => ret (false, this)
    | Some _ =>
      let* n := deref current in
      if value >? data n then
        match right n with
        | None =>
          let* fresh := new_Node value in
          set_right current fresh;;
          ret (true, mkBST (m_root this) (size_incr (m_size this)))
        | Some _ => insert_loop fuel' this value (right n)
        end
      else if value <? data n then
        match left n with
        | None =>
          let* fresh := new_Node value in
          set_left current fresh;;
          ret (true, mkBST (m_root this) (size_incr (m_size this)))
        | Some _ => insert_loop fuel' this value (left n)
        end
      else ret (false, this)
    end
  end.

Definition insert (this : BinarySearchTree) (value : Z) : M (bool * BinarySearchTree) :=
  if m_size this =? 0 then
    let* fresh := new_Node value in
    ret (true, mkBST fresh (size_incr (m_size this)))
  else
    let* fuel := get_budget in
    insert_loop fuel this value (m_root this).

(** [bool contains(T value) const] *)
Fixpoint contains_loop (fuel : nat) (value : Z) (current : ptr) : M bool :=
  match fuel with
  | O => out_of_fuel
  | S fuel' =>
    match current with
    | None => ret false
    | Some _ =>
      let* n := deref current in
      if data n >? value then contains_loop fuel' value (left n)
      else if data n <? value then contains_loop fuel' value (right n)
      else ret true
    end
  end.

Definition contains (this : BinarySearchTree) (value : Z) : M bool :=
  let* fuel := get_budget in
  contains_loop fuel value (m_root this).

(** [size_t size() const] *)
Definition size (this : BinarySearchTree) : Z := m_size this.

(** [bool remove(const T &value)]: the search for the target, the two
    descents towards the successor's and the predecessor's parent, and the
    body. *)
Fixpoint remove_find (fuel : nat) (value : Z) (target : ptr) : M ptr :=
  match fuel with
  | O => out_of_fuel
  | S fuel' =>
    match target with
    | None => ret None
    | Some _ =>
      let* n := deref target in
      if data n >? value then remove_find fuel' value (left n)
      else if data n <? value then remove_find fuel' value (right n)
      else ret target
    end
  end.

(** [while (current->left->left) current = current->left;] *)
Fixpoint descend_left (fuel : nat) (current : ptr) : M ptr :=
  match fuel with
  | O => out_of_fuel
  | S fuel' =>
    let* c := deref current in
    let* cl := deref (left c) in
    match left cl with
    | Some _ => descend_left fuel' (left c)
    | None => ret current
    end
  end.

(** [while (current->right->right) current = current->right;] *)
Fixpoint descend_right (fuel : nat) (current : ptr) : M ptr :=
  match fuel with
  | O => out_of_fuel
  | S fuel' =>
    let* c := deref current in
    let* cr := deref (right c) in
    match right cr with
    | Some _ => descend_right fuel' (right c)
    | None => ret current
    end
  end.

Definition decr_size (this : BinarySearchTree) : BinarySearchTree :=
  mkBST (m_root this) (size_decr (m_size this)).

Definition remove (this : BinarySearchTree) (value : Z) : M (bool * BinarySearchTree) :=
  let* fuel := get_budget in
  let* target := remove_find fuel value (m_root this) in
  match target with
  | None => ret (false, this)
  | Some _ =>
    let* t := deref target in
    match right t with
    | Some _ =>
      let current := right t in
      let* c := deref current in
      match left c with
      | None =>
        set_data target (data c);;
        set_right target (right c);;
        delete current;;
        ret (true, decr_size this)
      | Some _ =>
        let* current := descend_left fuel current in
        let* c := deref current in
        let* cl := deref (left c) in
        set_data target (data cl);;
        match right cl with
        | Some _ =>
          let tmp := right cl in
          delete (left c);;
          set_left current tmp;;
          ret (true, decr_size this)
        | None =>
          delete (left c);;
          ret (true, decr_size this)
        end
      end
    | None =>
      match left t with
      | Some _ =>
        let current := left t in
        let* c := deref current in
        match right c with
        | None =>
          set_data target (data c);;
          set_left target (left c);;
          delete current;;
          ret (true, decr_size this)
        | Some _ =>
          let* current := descend_right fuel current in
          let* c := deref current in
          let* cr := deref (right c) in
          set_data target (data cr);;
          match left cr with
          | Some _ =>
            let tmp := left cr in
            delete (right c);;
            set_right current tmp;;
            ret (true, decr_size this)
          | None =>
            delete (right c);;
            ret (true, decr_size this)
          end
        end
      | None =>
        delete target;;
        ret (true, decr_size this)
      end
    end
  end.

(** [bool operator==(const BinarySearchTree& other) const] *)
Fixpoint prefix_comp (fuel : nat) (self_curr other_curr : ptr) : M bool :=
  match fuel with
  | O => out_of_fuel
  | S fuel' =>
    match self_curr, other_curr with
    | None, None => ret true
    | None, Some _ | Some _, None => ret false
    | Some _, Some _ =>
      let* s := deref self_curr in
      let* o := deref other_curr in
      if negb (data s =? data o) then ret false
      else
        let* b := prefix_comp fuel' (left s) (left o) in
        if b then prefix_comp fuel' (right s) (right o) else ret false
    end
  end.

Definition equal (this other : BinarySearchTree) : M bool :=
  let* fuel := get_budget in
  prefix_comp fuel (m_root this) (m_root other).

Definition not_equal (this other : BinarySearchTree) : M bool :=
  let* b := equal this other in ret (negb b).

(** [bool isValid() const].  The bounds [min] and [max] of [isValid_helper]
    are pointers to [T] (or nullptr).  Its two recursive calls (lines 255 and
    256) pass [node->data], a [T], at these [const T*] positions: the element
    type has to supply the conversion from [T] to [const T*], and no built-in
    integer type has one.  The conversion is therefore a parameter here:
    [as_bound x] is the value read through the pointer that [x] converts to,
    and [None] when [x] converts to nullptr. *)
Fixpoint isValid_helper (as_bound : Z → option Z) (fuel : nat) (node : ptr)
    (min max : option Z) : M bool :=
  match fuel with
  | O => out_of_fuel
  | S fuel' =>
    match node with
    | None => ret true
    | Some _ =>
      let* n := deref node in
      if match min with Some lo => data n <=? lo | None => false end
         || match max with Some hi => data n >=? hi | None => false end
      then ret false
      else
        let* b := isValid_helper as_bound fuel' (left n) min (as_bound (data n)) in
        if b then isValid_helper as_bound fuel' (right n) (as_bound (data n)) max
        else ret false
    end
  end.

Definition isValid (as_bound : Z → option Z) (this : BinarySearchTree) : M bool :=
  let* fuel := get_budget in
  isValid_helper as_bound fuel (m_root this) None None.

(** The conversion of an element type whose values convert to their own
    address, as [&node->data] would. *)
Definition address_of (x : Z) : option Z := Some x.

(** [void postfix_del(Node *current)] and the destructor *)
Fixpoint postfix_del (fuel : nat) (current : ptr) : M unit :=
  match fuel with
  | O => out_of_fuel
  | S fuel' =>
    match current with
    | None => ret tt
    | Some _ =>
      let* n := deref current in
      postfix_del fuel' (left n);;
      let* n := deref current in
      postfix_del fuel' (right n);;
      delete current
    end
  end.

Definition destroy (this : BinarySearchTree) : M unit :=
  let* fuel := get_budget in
  postfix_del fuel (m_root this).

(** [void prefix_insert(Node *current)] *)
Fixpoint prefix_insert (fuel : nat) (this : BinarySearchTree) (current : ptr)
  : M BinarySearchTree :=
  match fuel with
  | O => out_of_fuel
  | S fuel' =>
    match current with
    | None => ret this
    | Some _ =>
      let* n := deref current in
      let* r := insert this (data n) in
      let* n := deref current in
      let* this := prefix_insert fuel' (snd r) (left n) in
      let* n := deref current in
      prefix_insert fuel' this (right n)
    end
  end.

(** [BinarySearchTree(const BinarySearchTree& other)] *)
Definition BinarySearchTree_copy (other : BinarySearchTree) : M BinarySearchTree :=
  let* fuel := get_budget in
  prefix_insert fuel (mkBST None 0) (m_root other).

(** [BinarySearchTree(BinarySearchTree&& other)]: the new object and what is
    left of [other]. *)
Definition BinarySearchTree_move (other : BinarySearchTree)
  : BinarySearchTree * BinarySearchTree :=
  (mkBST (m_root other) (m_size other), mkBST None 0).

(** [void bisection_insert(std::vector<T> &arr, size_t lower, size_t upper)] *)
Fixpoint bisection_insert (fuel : nat) (this : BinarySearchTree) (arr : list Z)
    (lower upper : Z) : M BinarySearchTree :=
  match fuel with
  | O => out_of_fuel
  | S fuel' =>
    if lower >=? upper then ret this
    else
      let midpoint := ((lower + upper) mod 2 ^ 64) / 2 in
      match arr !! Z.to_nat midpoint with
      | None => undefined
      | Some x =>
        let* r := insert this x in
        let* this := bisection_insert fuel' (snd r) arr lower midpoint in
        bisection_insert fuel' this arr ((midpoint + 1) mod 2 ^ 64) upper
      end
  end.

(** [BinarySearchTree(const T *arr, size_t size)]: [std::sort] is the
    ascending sort of the local copy.  The range is halved at every level of
    the recursion, so its depth stays below the length of the array plus
    one. *)
Definition BinarySearchTree_bulk (arr : list Z) : M BinarySearchTree :=
  let local_arr := merge_sort Z.le arr in
  let size := Z.of_nat (length arr) in
  bisection_insert (S (length arr)) (mkBST None 0) local_arr 0 size.

(** ** Running sequences of public operations *)

Inductive op := OpInsert (v : Z) | OpRemove (v : Z).

Definition run_op (this : BinarySearchTree) (o : op) : M (bool * BinarySearchTree) :=
  match o with
  | OpInsert v => insert this v
  | OpRemove v => remove this v
  end.

Fixpoint run_ops (this : BinarySearchTree) (ops : list op) : M BinarySearchTree :=
  match ops with
  | [] => ret this
  | o :: ops' => let* r := run_op this o in run_ops (snd r) ops'
  end.

Fixpoint insert_all (this : BinarySearchTree) (vs : list Z)
  : M (list bool * BinarySearchTree) :=
  match vs with
  | [] => ret ([], this)
  | v :: vs' =>
    let* r := insert this v in
    let* rs := insert_all (snd r) vs' in
    ret (fst r :: fst rs, snd rs)
  end.

(** Number of nodes linked from [current], counted by the walk that the
    destructor and the printer use: stop at nullptr, otherwise visit the node
    and both links. *)
Fixpoint count_nodes (fuel : nat) (current : ptr) : M Z :=
  match fuel with
  | O => out_of_fuel
  | S fuel' =>
    match current with
    | None => ret 0
    | Some _ =>
      let* n := deref current in
      let* a := count_nodes fuel' (left n) in
      let* b := count_nodes fuel' (right n) in
      ret (1 + a + b)
    end
  end.

Definition reachable_nodes (this : BinarySearchTree) : M Z :=
  let* fuel := get_budget in
  count_nodes fuel (m_root this).

(** ** Trees as values: what a well-formed store holds *)

Inductive tree := Leaf | Br (l : tree) (v : Z) (r : tree).

Fixpoint values (t : tree) : list Z :=
  match t with
  | Leaf => []
  | Br l v r => values l ++ v :: values r
  end.

Fixpoint preorder (t : tree) : list Z :=
  match t with
  | Leaf => []
  | Br l v r => v :: preorder l ++ preorder r
  end.

Fixpoint nodes (t : tree) : nat :=
  match t with
  | Leaf => O
  | Br l _ r => S (nodes l + nodes r)
  end.

Fixpoint height (t : tree) : nat :=
  match t with
  | Leaf => O
  | Br l _ r => S (Nat.max (height l) (height r))
  end.

(** The ordering invariant: everything on the left is strictly smaller,
    everything on the right strictly greater, at every node. *)
Fixpoint BST (t : tree) : Prop :=
  match t with
  | Leaf => True
  | Br l v r =>
    Forall (λ x, x < v) (values l) ∧ Forall (λ x, v < x) (values r) ∧ BST l ∧ BST r
  end.

(** The descent of [contains] and of [insert], on tree values. *)
Fixpoint tcontains (value : Z) (t : tree) : bool :=
  match t with
  | Leaf => false
  | Br l x r =>
    if x >? value then tcontains value l
    else if x <? value then tcontains value r
    else true
  end.

Fixpoint tinsert (value : Z) (t : tree) : tree :=
  match t with
  | Leaf => Br Leaf value Leaf
  | Br l x r =>
    if value >? x then Br l x (tinsert value r)
    else if value <? x then Br (tinsert value l) x r
    else t
  end.

Definition in_bounds (min max : option Z) (x : Z) : Prop :=
  match min with Some lo => lo < x | None => True end ∧
  match max with Some hi => x < hi | None => True end.

(** The recursion of [isValid_helper] with [address_of], on tree values. *)
Fixpoint tvalid (min max : option Z) (t : tree) : bool :=
  match t with
  | Leaf => true
  | Br l x r =>
    if match min with Some lo => x <=? lo | None => false end
       || match max with Some hi => x >=? hi | None => false end
    then false
    else tvalid min (Some x) l && tvalid (Some x) max r
  end.

(** Inserting a list of values one after the other. *)
Definition tinsert_list (vs : list Z) (t : tree) : tree :=
  fold_left (λ t v, tinsert v t) vs t.

(** The results of inserting a list of values, on tree values. *)
Fixpoint tinsert_results (vs : list Z) (t : tree) : list bool :=
  match vs with
  | [] => []
  | v :: vs' => negb (tcontains v t) :: tinsert_results vs' (tinsert v t)
  end.

(** ** Layouts: a tree value together with the addresses of its nodes *)

Inductive layout := LNil | LNode (a : addr) (l : layout) (v : Z) (r : layout).

Definition lroot (s : layout) : ptr :=
  match s with
  | LNil => None
  | LNode a _ _ _ => Some a
  end.

Fixpoint addrs (s : layout) : list addr :=
  match s with
  | LNil => []
  | LNode a l _ r => a :: addrs l ++ addrs r
  end.

Fixpoint erase (s : layout) : tree :=
  match s with
  | LNil => Leaf
  | LNode _ l v r => Br (erase l) v (erase r)
  end.

(** Every node of the layout is a live cell with the recorded data and links. *)
Fixpoint owns (c : gmap addr Node) (s : layout) : Prop :=
  match s with
  | LNil => True
  | LNode a l v r =>
    c !! a = Some (mkNode v (lroot r) (lroot l)) ∧ owns c l ∧ owns c r
  end.

(** The layout after [insert], when the new node is placed at address [b]. *)
Fixpoint linsert (b : addr) (value : Z) (s : layout) : layout :=
  match s with
  | LNil => LNode b LNil value LNil
  | LNode a l x r =>
    if value >? x then LNode a l x (linsert b value r)
    else if value <? x then LNode a (linsert b value l) x r
    else s
  end.

(** The object [this] is a well-formed tree laid out as [s] in the store. *)
Definition tree_at (m : memory) (this : BinarySearchTree) (s : layout) : Prop :=
  m_root this = lroot s ∧
  owns (cells m) s ∧
  NoDup (addrs s) ∧
  Forall (λ a, (a < brk m)%positive) (addrs s) ∧
  m_size this = Z.of_nat (nodes (erase s)) ∧
  m_size this ≤ SIZE_MAX.

(** [this] holds the tree value [t]: no link dangles, no node is shared, and
    the counter is the number of nodes. *)
Definition represents (m : memory) (this : BinarySearchTree) (t : tree) : Prop :=
  ∃ s, tree_at m this s ∧ erase s = t.

(** How the store may change while values are inserted into the tree laid
    out as [s]: only cells of the tree itself and newly allocated cells are
    written. *)
Definition grows (m : memory) (s : layout) (m' : memory) (s' : layout) : Prop :=
  (brk m ≤ brk m')%positive ∧
  (∀ a, a ∈ addrs s' → a ∈ addrs s ∨ (brk m ≤ a)%positive) ∧
  (∀ a, a ∉ addrs s → (a < brk m)%positive → cells m' !! a = cells m !! a).

(** The balanced tree over 1..7: root 4, children 2 and 6, leaves 1, 3, 5, 7. *)
Definition tree_1_to_7 : tree :=
  Br (Br (Br Leaf 1 Leaf) 2 (Br Leaf 3 Leaf)) 4 (Br (Br Leaf 5 Leaf) 6 (Br Leaf 7 Leaf)).


(** ** A small store for examples: 5 at the root, 3 to its left *)

Definition example_memory : memory :=
  mkMemory (<[2%positive := mkNode 3 None None]>
              (<[1%positive := mkNode 5 None (Some 2%positive)]> ∅)) 3%positive.
Definition example_object : BinarySearchTree := mkBST (Some 1%positive) 2.
Definition example_tree : tree := Br (Br Leaf 3 Leaf) 5 Leaf.
Definition example_layout : layout :=
  LNode 1%positive (LNode 2%positive LNil 3 LNil) 5 LNil.

Ltac by_decision := apply (bool_decide_unpack _); vm_compute; exact I.

Ltac example_represents :=
  exists example_layout; split; [|reflexivity];
  unfold tree_at; simpl;
  split; [reflexivity|]; split; [repeat split; reflexivity|];
  split; [by_decision|]; split; [by_decision|]; split; [reflexivity|];
  unfold SIZE_MAX; lia.

(** Equality of tree values is decidable. *)
Global Instance tree_eq_dec : EqDecision tree.
Proof. solve_decision. Defined.

(** ** Two more stores for examples *)

(** A well-formed tree that breaks the ordering: 9 to the left of 5. *)
Definition unordered_memory : memory :=
  mkMemory (<[2%positive := mkNode 9 None None]>
              (<[1%positive := mkNode 5 None (Some 2%positive)]> ∅)) 3%positive.
Definition unordered_tree : tree := Br (Br Leaf 9 Leaf) 5 Leaf.
Definition unordered_layout : layout :=
  LNode 1%positive (LNode 2%positive LNil 9 LNil) 5 LNil.

(** Two trees in one store with the same values 1 and 2 in different
    shapes: 2 inserted first, and 1 inserted first. *)
Definition pair_memory : memory :=
  mkMemory (<[4%positive := mkNode 2 None None]>
              (<[3%positive := mkNode 1 (Some 4%positive) None]>
                 (<[2%positive := mkNode 1 None None]>
                    (<[1%positive := mkNode 2 None (Some 2%positive)]> ∅)))) 5%positive.
Definition pair_first : BinarySearchTree := mkBST (Some 1%positive) 2.
Definition pair_second : BinarySearchTree := mkBST (Some 3%positive) 2.
Definition pair_first_layout : layout :=
  LNode 1%positive (LNode 2%positive LNil 1 LNil) 2 LNil.
Definition pair_second_layout : layout :=
  LNode 3%positive LNil 1 (LNode 4%positive LNil 2 LNil).

Ltac layout_represents s :=
  exists s; split; [|reflexivity];
  unfold tree_at; simpl;
  split; [reflexivity|]; split; [repeat split; reflexivity|];
  split; [by_decision|]; split; [by_decision|]; split; [reflexivity|];
  unfold SIZE_MAX; lia.

(** ** The bisection of [bisection_insert], on lists and tree values *)

(** The values that [bisection_insert] hands to [insert], in the order of
    its recursion. *)
Fixpoint bisection_order (fuel : nat) (arr : list Z) (lower upper : Z) : list Z :=
  match fuel with
  | O => []
  | S fuel' =>
    if lower >=? upper then []
    else
      let midpoint := ((lower + upper) mod 2 ^ 64) / 2 in
      match arr !! Z.to_nat midpoint with
      | None => []
      | Some x =>
        x :: bisection_order fuel' arr lower midpoint
          ++ bisection_order fuel' arr ((midpoint + 1) mod 2 ^ 64) upper
      end
  end.

(** The tree with the midpoint at the root and the two halves below it. *)
Fixpoint bisection_tree (fuel : nat) (arr : list Z) (lower upper : Z) : tree :=
  match fuel with
  | O => Leaf
  | S fuel' =>
    if lower >=? upper then Leaf
    else
      let midpoint := ((lower + upper) mod 2 ^ 64) / 2 in
      match arr !! Z.to_nat midpoint with
      | None => Leaf
      | Some x =>
        Br (bisection_tree fuel' arr lower midpoint) x
           (bisection_tree fuel' arr ((midpoint + 1) mod 2 ^ 64) upper)
      end
  end.

(** The slice [arr[lower .. upper)]. *)
Definition slice (arr : list Z) (lower upper : Z) : list Z :=
  take (Z.to_nat (upper - lower)) (drop (Z.to_nat lower) arr).

(** ** The splice of [remove], on tree values and layouts *)

(** The leftmost and the rightmost value of a tree ([d] for the empty tree). *)
Fixpoint tmin (d : Z) (t : tree) : Z :=
  match t with
  | Leaf => d
  | Br l x _ => tmin x l
  end.

Fixpoint tmax (d : Z) (t : tree) : Z :=
  match t with
  | Leaf => d
  | Br _ x r => tmax x r
  end.

(** The tree without its leftmost node, whose right subtree moves up; and
    the mirror image. *)
Fixpoint tdel_min (t : tree) : tree :=
  match t with
  | Leaf => Leaf
  | Br l x r =>
    match l with
    | Leaf => r
    | Br _ _ _ => Br (tdel_min l) x r
    end
  end.

Fixpoint tdel_max (t : tree) : tree :=
  match t with
  | Leaf => Leaf
  | Br l x r =>
    match r with
    | Leaf => l
    | Br _ _ _ => Br l x (tdel_max r)
    end
  end.

(** What [remove] makes of the subtree rooted at its target: the successor's
    value (or, without a right subtree, the predecessor's) replaces the
    target's, and the successor (predecessor) is spliced out. *)
Definition tremove_root (t : tree) : tree :=
  match t with
  | Leaf => Leaf
  | Br l x r =>
    match r with
    | Br _ _ _ => Br l (tmin x r) (tdel_min r)
    | Leaf =>
      match l with
      | Br _ _ _ => Br (tdel_max l) (tmax x l) Leaf
      | Leaf => Leaf
      end
    end
  end.

Fixpoint tremove (value : Z) (t : tree) : tree :=
  match t with
  | Leaf => Leaf
  | Br l x r =>
    if x >? value then Br (tremove value l) x r
    else if x <? value then Br l x (tremove value r)
    else tremove_root t
  end.

(** The leftmost (rightmost) node has a right (left) child. *)
Fixpoint min_has_child (t : tree) : bool :=
  match t with
  | Leaf => false
  | Br l _ r =>
    match l with
    | Leaf => match r with Leaf => false | Br _ _ _ => true end
    | Br _ _ _ => min_has_child l
    end
  end.

Fixpoint max_has_child (t : tree) : bool :=
  match t with
  | Leaf => false
  | Br l _ r =>
    match r with
    | Leaf => match l with Leaf => false | Br _ _ _ => true end
    | Br _ _ _ => max_has_child r
    end
  end.

(** The paths of [remove] that write the link that held the released node:
    the right child of the target has no left child (the target's right link
    is overwritten), or the node at the end of the left chain has a right
    child (the chain's last link is overwritten); and the mirror images when
    the target has no right child.  A target without children is released
    with its link left in place. *)
Definition relinks_root (t : tree) : bool :=
  match t with
  | Leaf => false
  | Br l _ r =>
    match r with
    | Br rl _ _ =>
      match rl with Leaf => true | Br _ _ _ => min_has_child rl end
    | Leaf =>
      match l with
      | Br _ _ lr =>
        match lr with Leaf => true | Br _ _ _ => max_has_child lr end
      | Leaf => false
      end
    end
  end.

Fixpoint relinks (value : Z) (t : tree) : bool :=
  match t with
  | Leaf => false
  | Br l x r =>
    if x >? value then relinks value l
    else if x <? value then relinks value r
    else relinks_root t
  end.

Fixpoint ldel_min (s : layout) : layout :=
  match s with
  | LNil => LNil
  | LNode a l x r =>
    match l with
    | LNil => r
    | LNode _ _ _ _ => LNode a (ldel_min l) x r
    end
  end.

Fixpoint ldel_max (s : layout) : layout :=
  match s with
  | LNil => LNil
  | LNode a l x r =>
    match r with
    | LNil => l
    | LNode _ _ _ _ => LNode a l x (ldel_max r)
    end
  end.

Definition lremove_root (s : layout) : layout :=
  match s with
  | LNil => LNil
  | LNode a l x r =>
    match r with
    | LNode _ _ _ _ => LNode a l (tmin x (erase r)) (ldel_min r)
    | LNil =>
      match l with
      | LNode _ _ _ _ => LNode a (ldel_max l) (tmax x (erase l)) LNil
      | LNil => LNil
      end
    end
  end.

Fixpoint lremove (value : Z) (s : layout) : layout :=
  match s with
  | LNil => LNil
  | LNode a l x r =>
    if x >? value then LNode a (lremove value l) x r
    else if x <? value then LNode a l x (lremove value r)
    else lremove_root s
  end.

(** The sub-layout rooted at the node that the search for [value] stops at. *)
Fixpoint lfind (value : Z) (s : layout) : layout :=
  match s with
  | LNil => LNil
  | LNode a l x r =>
    if x >? value then lfind value l
    else if x <? value then lfind value r
    else s
  end.

(** Membership of an address in the address list of a layout. *)
Ltac in_addrs :=
  cbn [addrs]; repeat (rewrite elem_of_cons || rewrite elem_of_app); auto 10.

(** ** Facts about tree values *)

Lemma values_length t : length (values t) = nodes t.
Proof.
  induction t as [|l IHl v r IHr]; simpl; [done|].
  rewrite length_app. simpl. lia.
Qed.

Lemma preorder_length t : length (preorder t) = nodes t.
Proof.
  induction t as [|l IHl v r IHr]; simpl; [done|].
  rewrite length_app. lia.
Qed.

Lemma preorder_values t : preorder t ≡ₚ values t.
Proof.
  induction t as [|l IHl v r IHr]; simpl; [done|].
  rewrite IHl, IHr. by rewrite Permutation_middle.
Qed.

Lemma height_le_nodes t : (height t ≤ nodes t)%nat.
Proof. induction t; simpl; lia. Qed.

Lemma nodes_lt_pow_height t : (nodes t < 2 ^ height t)%nat.
Proof.
  induction t as [|l IHl v r IHr]; simpl; [lia|].
  pose proof (Nat.pow_le_mono_r 2 (height l) (Nat.max (height l) (height r))).
  pose proof (Nat.pow_le_mono_r 2 (height r) (Nat.max (height l) (height r))).
  lia.
Qed.

Lemma tvalid_spec t : ∀ min max,
  tvalid min max t = true ↔ BST t ∧ Forall (in_bounds min max) (values t).
Proof.
  induction t as [|l IHl v r IHr]; intros lo hi; simpl.
  { split; [intros _; split; [done|constructor]|done]. }
  destruct (_ || _) eqn:Hb.
  - split; [done|]. intros (_ & Hall).
    apply Forall_app in Hall as (_ & Hv). apply Forall_cons in Hv as ([H1 H2] & _).
    apply orb_true_iff in Hb. destruct lo, hi; simpl in *; destruct Hb; lia.
  - apply orb_false_iff in Hb as [Hlo Hhi].
    rewrite andb_true_iff, IHl, IHr. rewrite Forall_app, Forall_cons.
    rewrite !Forall_forall. unfold in_bounds. split.
    + intros ((Hl & Hal) & (Hr & Har)).
      repeat match goal with |- _ ∧ _ => split end; try done;
        try (intros x Hx; try specialize (Hal x Hx); try specialize (Har x Hx));
        destruct lo, hi; simpl in *; lia.
    + intros ((Hlv & Hrv & Hl & Hr) & Hal & (Hv1 & Hv2) & Har).
      repeat match goal with |- _ ∧ _ => split end; try done;
        intros x Hx; try specialize (Hal x Hx); try specialize (Har x Hx);
        try specialize (Hlv x Hx); try specialize (Hrv x Hx);
        destruct lo, hi; simpl in *; lia.
Qed.

Lemma tvalid_BST t : tvalid None None t = true ↔ BST t.
Proof.
  rewrite tvalid_spec. split; [tauto|]. intros H. split; [done|].
  apply Forall_forall. by intros.
Qed.

Lemma tcontains_values value t : tcontains value t = true → value ∈ values t.
Proof.
  induction t as [|l IHl x r IHr]; simpl; [done|].
  destruct (x >? value) eqn:H1; [set_solver|].
  destruct (x <? value) eqn:H2; [set_solver|].
  assert (x = value) as -> by lia. set_solver.
Qed.

Lemma tcontains_BST value t : BST t → value ∈ values t → tcontains value t = true.
Proof.
  induction t as [|l IHl x r IHr]; simpl; [by intros _ ?%elem_of_nil|].
  intros (Hl & Hr & Bl & Br0). rewrite elem_of_app, elem_of_cons.
  rewrite Forall_forall in Hl, Hr.
  destruct (x >? value) eqn:H1.
  - intros [?|[->|Hin]]; [by apply IHl|lia|]. apply Hr in Hin. lia.
  - destruct (x <? value) eqn:H2; [|done].
    intros [Hin|[->|?]]; [|lia|by apply IHr]. apply Hl in Hin. lia.
Qed.

Lemma tinsert_present value t : tcontains value t = true → tinsert value t = t.
Proof.
  induction t as [|l IHl x r IHr]; simpl; [done|].
  destruct (x >? value) eqn:H1, (x <? value) eqn:H2; try lia.
  - intros H. assert ((value >? x) = false) as -> by lia.
    assert ((value <? x) = true) as -> by lia. by rewrite IHl.
  - intros H. assert ((value >? x) = true) as -> by lia. by rewrite IHr.
  - intros _. assert ((value >? x) = false) as -> by lia.
    by assert ((value <? x) = false) as -> by lia.
Qed.

Lemma tinsert_values value t :
  tcontains value t = false → values (tinsert value t) ≡ₚ value :: values t.
Proof.
  induction t as [|l IHl x r IHr]; simpl; [done|].
  destruct (x >? value) eqn:H1, (x <? value) eqn:H2; try lia; try done.
  - intros H. assert ((value >? x) = false) as -> by lia.
    assert ((value <? x) = true) as -> by lia. simpl. by rewrite IHl.
  - intros H. assert ((value >? x) = true) as -> by lia. simpl. rewrite IHr by done.
    by rewrite <- !Permutation_middle, Permutation_swap.
Qed.

Lemma tinsert_nodes value t :
  tcontains value t = false → nodes (tinsert value t) = S (nodes t).
Proof.
  intros H. rewrite <- !values_length. by rewrite (tinsert_values _ _ H).
Qed.

Lemma tinsert_BST value t : BST t → BST (tinsert value t).
Proof.
  induction t as [|l IHl x r IHr]; simpl.
  { intros _. repeat split; constructor. }
  intros (Hl & Hr & Bl & Br0).
  destruct (value >? x) eqn:H1; [|destruct (value <? x) eqn:H2]; simpl.
  - repeat split; try done; [|by apply IHr].
    destruct (tcontains value r) eqn:Hc; [by rewrite tinsert_present|].
    rewrite (tinsert_values _ _ Hc). constructor; [lia|done].
  - repeat split; try done; [|by apply IHl].
    destruct (tcontains value l) eqn:Hc; [by rewrite tinsert_present|].
    rewrite (tinsert_values _ _ Hc). constructor; [lia|done].
  - done.
Qed.

Lemma tcontains_tinsert value w t :
  tcontains w (tinsert value t) = bool_decide (w = value) || tcontains w t.
Proof.
  induction t as [|l IHl x r IHr]; simpl.
  { case_bool_decide; subst.
    - assert ((value >? value) = false) as -> by lia.
      by assert ((value <? value) = false) as -> by lia.
    - destruct (value >? w) eqn:H1; [done|]. destruct (value <? w) eqn:H2; [done|lia]. }
  destruct (value >? x) eqn:H1; [|destruct (value <? x) eqn:H2]; simpl.
  - destruct (x >? w) eqn:H3.
    + case_bool_decide; [lia|done].
    + destruct (x <? w) eqn:H4; [done|]. by rewrite orb_true_r.
  - destruct (x >? w) eqn:H3; [done|].
    destruct (x <? w) eqn:H4; [|by rewrite orb_true_r].
    case_bool_decide; [lia|done].
  - assert (value = x) as -> by lia.
    case_bool_decide; subst; [|done].
    assert ((x >? x) = false) as -> by lia.
    by assert ((x <? x) = false) as -> by lia.
Qed.

Lemma tinsert_list_app xs ys t :
  tinsert_list (xs ++ ys) t = tinsert_list ys (tinsert_list xs t).
Proof. apply fold_left_app. Qed.

Lemma tinsert_list_left xs : ∀ l v r,
  Forall (λ x, x < v) xs → tinsert_list xs (Br l v r) = Br (tinsert_list xs l) v r.
Proof.
  induction xs as [|x xs IH]; intros l v r Hall; [done|].
  apply Forall_cons in Hall as [Hx Hall]. simpl.
  assert ((x >? v) = false) as -> by lia.
  assert ((x <? v) = true) as -> by lia.
  by apply IH.
Qed.

Lemma tinsert_list_right xs : ∀ l v r,
  Forall (λ x, v < x) xs → tinsert_list xs (Br l v r) = Br l v (tinsert_list xs r).
Proof.
  induction xs as [|x xs IH]; intros l v r Hall; [done|].
  apply Forall_cons in Hall as [Hx Hall]. simpl.
  assert ((x >? v) = true) as -> by lia.
  by apply IH.
Qed.

(** Re-inserting the pre-order listing of a search tree into the empty tree
    gives the same tree back, shape included. *)
Lemma tinsert_list_preorder t : BST t → tinsert_list (preorder t) Leaf = t.
Proof.
  induction t as [|l IHl v r IHr]; [done|].
  intros (Hl & Hr & Bl & Br0). simpl preorder.
  change (tinsert_list (v :: ?xs) Leaf) with (tinsert_list xs (Br Leaf v Leaf)).
  rewrite tinsert_list_app.
  rewrite tinsert_list_left by (by rewrite preorder_values).
  rewrite tinsert_list_right by (by rewrite preorder_values).
  by rewrite IHl, IHr.
Qed.

Lemma tcontains_tinsert_list w vs : ∀ t,
  tcontains w (tinsert_list vs t) = bool_decide (w ∈ vs) || tcontains w t.
Proof.
  induction vs as [|v vs IH]; intros t.
  { rewrite bool_decide_eq_false_2; [done|]. apply not_elem_of_nil. }
  change (tinsert_list (v :: vs) t) with (tinsert_list vs (tinsert v t)).
  rewrite IH, tcontains_tinsert.
  destruct (decide (w = v)) as [->|Hne].
  - rewrite (bool_decide_eq_true_2 (v = v)) by done.
    rewrite (bool_decide_eq_true_2 (v ∈ v :: vs)) by (by left).
    by rewrite orb_true_r.
  - rewrite (bool_decide_eq_false_2 (w = v)) by done. simpl.
    f_equal. apply bool_decide_ext. rewrite elem_of_cons. tauto.
Qed.

Lemma addrs_length s : length (addrs s) = nodes (erase s).
Proof.
  induction s as [|a l IHl v r IHr]; simpl; [done|].
  rewrite length_app. lia.
Qed.

Lemma erase_linsert b value s : erase (linsert b value s) = tinsert value (erase s).
Proof.
  induction s as [|a l IHl x r IHr]; simpl; [done|].
  destruct (value >? x); [simpl; by rewrite IHr|].
  destruct (value <? x); [simpl; by rewrite IHl|done].
Qed.

Lemma lroot_linsert b value a l x r :
  lroot (linsert b value (LNode a l x r)) = Some a.
Proof. simpl. by destruct (value >? x), (value <? x). Qed.

Lemma addrs_linsert b value s : addrs (linsert b value s) ⊆ b :: addrs s.
Proof.
  induction s as [|a l IHl x r IHr]; simpl; [done|].
  destruct (value >? x); [|destruct (value <? x)]; simpl.
  - intros y [->|[?|[->|?]%IHr%elem_of_cons]%elem_of_app]%elem_of_cons;
      rewrite !elem_of_cons, elem_of_app; tauto.
  - intros y [->|[[->|?]%IHl%elem_of_cons|?]%elem_of_app]%elem_of_cons;
      rewrite !elem_of_cons, elem_of_app; tauto.
  - intros y Hy. by right.
Qed.

Lemma addrs_linsert_NoDup b value s :
  b ∉ addrs s → NoDup (addrs s) → NoDup (addrs (linsert b value s)).
Proof.
  induction s as [|a l IHl x r IHr]; simpl.
  { intros _ _. apply NoDup_singleton. }
  intros Hb [Ha (Hl & Hlr & Hr)%NoDup_app]%NoDup_cons.
  apply not_elem_of_cons in Hb as [Hba Hb].
  apply not_elem_of_app in Hb as [Hbl Hbr].
  apply not_elem_of_app in Ha as [Hal Har].
  destruct (value >? x); [|destruct (value <? x)]; simpl.
  - pose proof (addrs_linsert b value r) as Hsub.
    apply NoDup_cons. split.
    + apply not_elem_of_app. split; [done|].
      intros [?|?]%Hsub%elem_of_cons; [by subst|done].
    + apply NoDup_app. split_and!; [done| |by apply IHr].
      intros y Hy [?|?]%Hsub%elem_of_cons; [by subst|]. by eapply Hlr.
  - pose proof (addrs_linsert b value l) as Hsub.
    apply NoDup_cons. split.
    + apply not_elem_of_app. split; [|done].
      intros [?|?]%Hsub%elem_of_cons; [by subst|done].
    + apply NoDup_app. split_and!; [by apply IHl| |done].
      intros y [?|?]%Hsub%elem_of_cons Hy; [by subst|]. by eapply Hlr.
  - apply NoDup_cons. split; [by apply not_elem_of_app|]. by apply NoDup_app.
Qed.

Lemma owns_frame c c' s :
  (∀ a, a ∈ addrs s → c' !! a = c !! a) → owns c s → owns c' s.
Proof.
  induction s as [|a l IHl v r IHr]; simpl; [done|].
  intros Hsame (Ha & Hl & Hr). split_and!.
  - rewrite Hsame; [done|set_solver].
  - apply IHl; [|done]. intros; apply Hsame; set_solver.
  - apply IHr; [|done]. intros; apply Hsame; set_solver.
Qed.

Lemma owns_live c s a : owns c s → a ∈ addrs s → is_Some (c !! a).
Proof.
  induction s as [|a' l IHl v r IHr]; simpl; [by intros _ ?%elem_of_nil|].
  intros (Ha & Hl & Hr). rewrite elem_of_cons, elem_of_app.
  intros [->|[?|?]]; eauto.
Qed.

(** The budget of a store covers the height of every tree laid out in it. *)
Lemma owns_budget m s :
  owns (cells m) s → NoDup (addrs s) → (height (erase s) < budget m)%nat.
Proof.
  intros Ho Hnd. unfold budget.
  pose proof (height_le_nodes (erase s)). rewrite <- addrs_length in H.
  assert (length (addrs s) ≤ base.size (cells m))%nat; [|lia].
  rewrite <- size_dom. unfold base.size at 1, set_size at 1. simpl.
  apply submseteq_length, NoDup_submseteq; [done|].
  intros a Ha. apply elem_of_elements, elem_of_dom. by eapply owns_live.
Qed.

(** ** The loops on a well-formed store *)

Lemma deref_live m a n : cells m !! a = Some n → deref (Some a) m = Ok (n, m).
Proof. intros H. unfold deref. by rewrite H. Qed.

Lemma store_live m a n f :
  cells m !! a = Some n →
  store (Some a) f m = Ok (tt, mkMemory (<[a := f n]> (cells m)) (brk m)).
Proof. intros H. unfold store, bind. by rewrite (deref_live _ _ _ H). Qed.

Lemma contains_loop_owns s : ∀ fuel value m,
  owns (cells m) s → (height (erase s) < fuel)%nat →
  contains_loop fuel value (lroot s) m = Ok (tcontains value (erase s), m).
Proof.
  induction s as [|a l IHl x r IHr]; intros [|fuel] value m Ho Hf; simpl in *;
    try lia; [done|].
  destruct Ho as (Ha & Hl & Hr).
  unfold bind. rewrite (deref_live _ _ _ Ha). simpl.
  destruct (x >? value); [apply IHl; [done|lia]|].
  destruct (x <? value); [apply IHr; [done|lia]|done].
Qed.

Lemma remove_find_absent fuel : ∀ value p m m',
  contains_loop fuel value p m = Ok (false, m') →
  remove_find fuel value p m = Ok (None, m).
Proof.
  induction fuel as [|fuel IH]; intros value p m m'; simpl; [done|].
  destruct p as [a|]; [|done].
  unfold bind. destruct (deref (Some a) m) as [[n m1]| |] eqn:Hd; try done.
  assert (m1 = m) as ->.
  { unfold deref in Hd. destruct (cells m !! a); by simplify_eq. }
  destruct (data n >? value); [apply IH|].
  destruct (data n <? value); [apply IH|done].
Qed.

Lemma attach_right {A} m a n value (x : A) :
  cells m !! a = Some n → a ≠ brk m →
  (let* fresh := new_Node value in set_right (Some a) fresh;; ret x) m
  = Ok (x, mkMemory (<[a := mkNode (data n) (Some (brk m)) (left n)]>
                       (<[brk m := mkNode value None None]> (cells m)))
                    (Pos.succ (brk m))).
Proof.
  intros Ha Hne. unfold bind at 1. unfold new_Node. unfold bind, set_right.
  erewrite store_live; [done|]. simpl. by rewrite lookup_insert_ne.
Qed.

Lemma attach_left {A} m a n value (x : A) :
  cells m !! a = Some n → a ≠ brk m →
  (let* fresh := new_Node value in set_left (Some a) fresh;; ret x) m
  = Ok (x, mkMemory (<[a := mkNode (data n) (right n) (Some (brk m))]>
                       (<[brk m := mkNode value None None]> (cells m)))
                    (Pos.succ (brk m))).
Proof.
  intros Ha Hne. unfold bind at 1. unfold new_Node. unfold bind, set_left.
  erewrite store_live; [done|]. simpl. by rewrite lookup_insert_ne.
Qed.

Lemma Forall_lt_fresh (b : addr) (l : list addr) :
  Forall (λ a, (a < b)%positive) l → b ∉ l.
Proof. rewrite Forall_forall. intros H Hin. apply H in Hin. lia. Qed.

Lemma insert_loop_step fuel this value a n m :
  cells m !! a = Some n →
  insert_loop (S fuel) this value (Some a) m =
  (if value >? data n then
     match right n with
     | None =>
       let* fresh := new_Node value in
       set_right (Some a) fresh;;
       ret (true, mkBST (m_root this) (size_incr (m_size this)))
     | Some _ => insert_loop fuel this value (right n)
     end
   else if value <? data n then
     match left n with
     | None =>
       let* fresh := new_Node value in
       set_left (Some a) fresh;;
       ret (true, mkBST (m_root this) (size_incr (m_size this)))
     | Some _ => insert_loop fuel this value (left n)
     end
   else ret (false, this)) m.
Proof. intros Ha. cbn [insert_loop]. unfold bind at 1. by rewrite (deref_live _ _ _ Ha). Qed.

Lemma insert_loop_owns s : ∀ fuel this value m,
  s ≠ LNil → owns (cells m) s → NoDup (addrs s) →
  Forall (λ a, (a < brk m)%positive) (addrs s) →
  (height (erase s) ≤ fuel)%nat →
  (tcontains value (erase s) = true →
    insert_loop fuel this value (lroot s) m = Ok ((false, this), m)) ∧
  (tcontains value (erase s) = false →
    ∃ c', insert_loop fuel this value (lroot s) m
            = Ok ((true, mkBST (m_root this) (size_incr (m_size this))),
                  mkMemory c' (Pos.succ (brk m))) ∧
          owns c' (linsert (brk m) value s) ∧
          ∀ a, a ∉ addrs s → a ≠ brk m → c' !! a = cells m !! a).
Proof.
  induction s as [|a l IHl x r IHr]; intros fuel this value m Hne Ho Hnd Hlt Hf;
    [done|clear Hne].
  destruct fuel as [|fuel]; [simpl in Hf; lia|].
  destruct Ho as (Ha & Hl & Hr).
  simpl in Hnd. apply NoDup_cons in Hnd as [Hal (Hndl & Hlr & Hndr)%NoDup_app].
  apply not_elem_of_app in Hal as [Hal Har].
  simpl in Hlt. apply Forall_cons in Hlt as [Hab [Hltl Hltr]%Forall_app].
  assert (a ≠ brk m) as Hab' by lia.
  pose proof (Forall_lt_fresh _ _ Hltl) as Hbl.
  pose proof (Forall_lt_fresh _ _ Hltr) as Hbr.
  cbn [erase tcontains linsert lroot height] in *.
  rewrite (insert_loop_step _ _ _ _ _ _ Ha). cbn [data right left].
  assert ((x >? value) = (value <? x)) as -> by lia.
  assert ((x <? value) = (value >? x)) as -> by lia.
  destruct (value >? x) eqn:Hgt; [assert ((value <? x) = false) as -> by lia|
    destruct (value <? x) eqn:Hlt'; [|done]].
  - destruct r as [|ra rl rx rr].
    + (* the right link is nullptr: allocate and attach *)
      cbn [lroot erase tcontains linsert]. split; [done|]. intros _.
      eexists. split_and!.
      * by apply attach_right.
      * simpl. rewrite lookup_insert_eq. split_and!; try done.
        -- apply (owns_frame (cells m)); [|done]. intros a' Ha'.
           rewrite !lookup_insert_ne; [done|congruence|congruence].
        -- rewrite lookup_insert_ne by done. apply lookup_insert_eq.
      * simpl. intros a' Ha' Hb. rewrite !lookup_insert_ne; try done.
        intros ->. apply Ha'. rewrite elem_of_cons. tauto.
    + (* descend into the right subtree *)
      destruct (IHr fuel this value m) as [IH1 IH2]; try done; [lia|].
      change (lroot (LNode ra rl rx rr)) with (Some ra) in *.
      split; [done|]. intros Hc. destruct (IH2 Hc) as (c' & Hrun & Hown & Hfr).
      exists c'. split_and!; [done| |].
      * pose proof (lroot_linsert (brk m) value ra rl rx rr) as Hroot.
        cbn [owns]. rewrite Hroot. split_and!; [|  |done].
        -- rewrite Hfr; done.
        -- apply (owns_frame (cells m)); [|done]. intros a' Ha'.
           apply Hfr; [by apply Hlr|congruence].
      * intros a' Ha' Hb. apply Hfr; [|done].
        intros Hin. apply Ha'.
        change (a' ∈ a :: addrs l ++ addrs (LNode ra rl rx rr)).
        rewrite elem_of_cons, elem_of_app. tauto.
  - destruct l as [|la ll lx lr].
    + cbn [lroot erase tcontains linsert]. split; [done|]. intros _.
      eexists. split_and!.
      * by apply attach_left.
      * simpl. rewrite lookup_insert_eq. split_and!; try done.
        -- rewrite lookup_insert_ne by done. apply lookup_insert_eq.
        -- apply (owns_frame (cells m)); [|done]. intros a' Ha'.
           rewrite !lookup_insert_ne; [done|congruence|congruence].
      * simpl. intros a' Ha' Hb. rewrite !lookup_insert_ne; try done.
        intros ->. apply Ha'. rewrite elem_of_cons. tauto.
    + destruct (IHl fuel this value m) as [IH1 IH2]; try done; [lia|].
      change (lroot (LNode la ll lx lr)) with (Some la) in *.
      split; [done|]. intros Hc. destruct (IH2 Hc) as (c' & Hrun & Hown & Hfr).
      exists c'. split_and!; [done| |].
      * pose proof (lroot_linsert (brk m) value la ll lx lr) as Hroot.
        cbn [owns]. rewrite Hroot. split_and!; [|done|].
        -- rewrite Hfr; done.
        -- apply (owns_frame (cells m)); [|done]. intros a' Ha'.
           apply Hfr; [|congruence]. intros Hin. by apply (Hlr a').
      * intros a' Ha' Hb. apply Hfr; [|done].
        intros Hin. apply Ha'.
        change (a' ∈ a :: addrs (LNode la ll lx lr) ++ addrs r).
        rewrite elem_of_cons, elem_of_app. tauto.
Qed.

Lemma linsert_present b value s : tcontains value (erase s) = true → linsert b value s = s.
Proof.
  induction s as [|a l IHl x r IHr]; simpl; [done|].
  assert ((x >? value) = (value <? x)) as -> by lia.
  assert ((x <? value) = (value >? x)) as -> by lia.
  destruct (value >? x) eqn:H1; [assert ((value <? x) = false) as -> by lia|
    destruct (value <? x) eqn:H2; [|done]].
  - intros H. by rewrite IHr.
  - intros H. by rewrite IHl.
Qed.

Lemma size_incr_small s : 0 ≤ s < SIZE_MAX → size_incr s = s + 1.
Proof. unfold size_incr, SIZE_MAX. intros H. apply Z.mod_small. lia. Qed.

(** ** The public operations on a well-formed tree *)

Lemma contains_tree_at m this s value :
  tree_at m this s → contains this value m = Ok (tcontains value (erase s), m).
Proof.
  intros (Hroot & Ho & Hnd & _). unfold contains, bind, get_budget.
  rewrite Hroot. apply contains_loop_owns; [done|]. by apply owns_budget.
Qed.

Lemma insert_tree_at m this s value :
  tree_at m this s →
  (tcontains value (erase s) = false → m_size this < SIZE_MAX) →
  ∃ this' m',
    insert this value m = Ok ((negb (tcontains value (erase s)), this'), m') ∧
    tree_at m' this' (linsert (brk m) value s) ∧
    (tcontains value (erase s) = true → this' = this ∧ m' = m) ∧
    (tcontains value (erase s) = false →
       m_size this' = m_size this + 1 ∧ brk m' = Pos.succ (brk m)) ∧
    (brk m ≤ brk m')%positive ∧
    (∀ a, a ∉ addrs s → (a < brk m)%positive → cells m' !! a = cells m !! a).
Proof.
  intros (Hroot & Ho & Hnd & Hlt & Hsize & Hmax) Hroom.
  pose proof (Forall_lt_fresh _ _ Hlt) as Hfresh.
  destruct s as [|a l x r].
  - (* empty tree: the new node becomes the root *)
    simpl in *. unfold insert. rewrite Hsize. simpl.
    eexists _, _. split; [reflexivity|].
    rewrite Hsize in Hroom. specialize (Hroom eq_refl).
    split; [|split; [done|split; [done|split]]].
    + unfold tree_at. simpl. rewrite lookup_insert_eq.
      split; [done|split; [done|split; [apply NoDup_singleton|split; [|done]]]].
      apply Forall_singleton. lia.
    + simpl. lia.
    + intros a _ Ha. simpl. rewrite lookup_insert_ne; [done|lia].
  - assert (m_size this ≠ 0) as Hnz by (rewrite Hsize; simpl; lia).
    unfold insert. destruct (m_size this =? 0) eqn:Hz; [lia|clear Hz].
    unfold bind at 1. unfold get_budget. rewrite Hroot.
    destruct (insert_loop_owns (LNode a l x r) (budget m) this value m)
      as [Hpresent Habsent]; try done.
    { pose proof (owns_budget m _ Ho Hnd). lia. }
    destruct (tcontains value (erase (LNode a l x r))) eqn:Hc.
    + rewrite (linsert_present _ _ _ Hc). exists this, m.
      split; [by apply Hpresent|].
      split; [done|split; [done|split; [done|split; [lia|done]]]].
    + destruct (Habsent eq_refl) as (c' & Hrun & Hown & Hfr).
      specialize (Hroom eq_refl).
      eexists _, _. split; [exact Hrun|].
      assert (0 ≤ m_size this) by lia.
      split; [|split; [done|split; [|split]]].
      * unfold tree_at. cbn [m_root m_size cells brk].
        rewrite lroot_linsert, erase_linsert, tinsert_nodes by done.
        rewrite size_incr_small by lia.
        split; [done|split; [done|split; [|split; [|lia]]]].
        -- by apply addrs_linsert_NoDup.
        -- apply Forall_forall. intros a' [->|Hin]%addrs_linsert%elem_of_cons; [lia|].
           rewrite Forall_forall in Hlt. apply Hlt in Hin. lia.
      * intros _. simpl. by rewrite size_incr_small.
      * simpl. lia.
      * intros a' Ha' Hlt'. apply Hfr; [done|lia].
Qed.

Lemma isValid_helper_owns s : ∀ fuel min max m,
  owns (cells m) s → (height (erase s) < fuel)%nat →
  isValid_helper address_of fuel (lroot s) min max m
  = Ok (tvalid min max (erase s), m).
Proof.
  induction s as [|a l IHl x r IHr]; intros [|fuel] lo hi m Ho Hf; simpl in *;
    try lia; [done|].
  destruct Ho as (Ha & Hl & Hr).
  unfold bind at 1. rewrite (deref_live _ _ _ Ha). simpl.
  destruct (_ || _); [done|].
  unfold bind, address_of. rewrite IHl by (done || lia).
  destruct (tvalid lo (Some x) (erase l)); [|done].
  rewrite IHr by (done || lia). done.
Qed.

Lemma isValid_helper_ext f g :
  (∀ x, f x = g x) →
  ∀ fuel node min max m,
    isValid_helper f fuel node min max m = isValid_helper g fuel node min max m.
Proof.
  intros Hfg. induction fuel as [|fuel IH]; intros node lo hi m; [done|].
  simpl. destruct node as [a|]; [|done].
  unfold bind. destruct (deref (Some a) m) as [[n m1]| |]; [|done..].
  destruct (_ || _); [done|].
  rewrite Hfg, IH.
  destruct (isValid_helper g fuel _ _ _ m1) as [[[] m2]| |]; first [done|apply IH].
Qed.

(** [isValid] on a tree with a link to a released cell.  The bounds are
    compared before the links are followed, so a read through the link is
    reached unless a bound has already failed. *)
Lemma isValid_dangling_left as_bound this m a n a' :
  m_root this = Some a → cells m !! a = Some n →
  left n = Some a' → cells m !! a' = None →
  isValid as_bound this m = Undefined.
Proof.
  intros Hroot Ha Hl Ha'. unfold isValid, bind, get_budget, budget. rewrite Hroot.
  destruct (base.size (cells m)) as [|k] eqn:Hk.
  { apply map_size_empty_inv in Hk. rewrite Hk in Ha. by rewrite lookup_empty in Ha. }
  cbn [isValid_helper]. unfold bind at 1. rewrite (deref_live _ _ _ Ha).
  cbn [orb]. rewrite Hl. unfold bind, deref. by rewrite Ha'.
Qed.

Lemma isValid_dangling_right_left as_bound this m a n a2 n2 a3 :
  m_root this = Some a → cells m !! a = Some n →
  left n = None → right n = Some a2 → cells m !! a2 = Some n2 →
  left n2 = Some a3 → cells m !! a3 = None →
  (2 ≤ base.size (cells m))%nat →
  isValid as_bound this m = Undefined ∨ isValid as_bound this m = Ok (false, m).
Proof.
  intros Hroot Ha Hl Hr Ha2 Hl2 Ha3 Hsz.
  assert (isValid as_bound this m
          = if match as_bound (data n) with
               | Some lo => data n2 <=? lo
               | None => false
               end
            then Ok (false, m) else Undefined) as ->.
  { unfold isValid, bind, get_budget, budget. rewrite Hroot.
    destruct (base.size (cells m)) as [|[|k]]; [lia..|].
    cbn [isValid_helper]. unfold bind, ret, deref. cbv beta iota delta [orb].
    rewrite Ha. cbv beta iota delta [orb]. rewrite Hl, Hr. cbv beta iota delta [orb].
    rewrite Ha2. cbv beta iota.
    destruct (match as_bound (data n) with Some _ => _ | None => _ end); [done|].
    rewrite Hl2. cbv beta iota. by rewrite Ha3. }
  destruct (match as_bound (data n) with Some _ => _ | None => _ end);
    [by right|by left].
Qed.

Lemma isValid_tree_at m this s :
  tree_at m this s →
  isValid address_of this m = Ok (tvalid None None (erase s), m).
Proof.
  intros (Hroot & Ho & Hnd & _). unfold isValid, bind, get_budget.
  rewrite Hroot. apply isValid_helper_owns; [done|]. by apply owns_budget.
Qed.

Lemma prefix_comp_same s1 : ∀ s2 fuel m,
  owns (cells m) s1 → owns (cells m) s2 → erase s1 = erase s2 →
  (height (erase s1) < fuel)%nat →
  prefix_comp fuel (lroot s1) (lroot s2) m = Ok (true, m).
Proof.
  induction s1 as [|a1 l1 IHl x1 r1 IHr]; intros [|a2 l2 x2 r2] [|fuel] m Ho1 Ho2 He Hf;
    simpl in *; try lia; try done.
  destruct Ho1 as (Ha1 & Hl1 & Hr1). destruct Ho2 as (Ha2 & Hl2 & Hr2).
  injection He as Hel Hx Her. subst x2.
  unfold bind at 1. rewrite (deref_live _ _ _ Ha1).
  unfold bind at 1. rewrite (deref_live _ _ _ Ha2). simpl.
  rewrite Z.eqb_refl. simpl. unfold bind.
  rewrite (IHl l2) by (done || lia). apply IHr; (done || lia).
Qed.

Lemma count_nodes_owns s : ∀ fuel m,
  owns (cells m) s → (height (erase s) < fuel)%nat →
  count_nodes fuel (lroot s) m = Ok (Z.of_nat (nodes (erase s)), m).
Proof.
  induction s as [|a l IHl x r IHr]; intros [|fuel] m Ho Hf; simpl in *;
    try lia; [done|].
  destruct Ho as (Ha & Hl & Hr).
  unfold bind at 1. rewrite (deref_live _ _ _ Ha). simpl.
  unfold bind. rewrite IHl, IHr by (done || lia). unfold ret.
  do 2 f_equal. lia.
Qed.

(** On a well-formed tree the walk from the root counts exactly [size]
    nodes. *)
Lemma reachable_nodes_tree_at m this s :
  tree_at m this s → reachable_nodes this m = Ok (size this, m).
Proof.
  intros (Hroot & Ho & Hnd & _ & Hsz & _). unfold reachable_nodes, bind, get_budget.
  rewrite Hroot. unfold size. rewrite Hsz.
  apply count_nodes_owns; [done|]. by apply owns_budget.
Qed.

Lemma grows_refl m s : grows m s m s.
Proof. split; [lia|]. split; [tauto|done]. Qed.

Lemma grows_trans m1 s1 m2 s2 m3 s3 :
  grows m1 s1 m2 s2 → grows m2 s2 m3 s3 → grows m1 s1 m3 s3.
Proof.
  intros (Hb1 & Ha1 & Hf1) (Hb2 & Ha2 & Hf2). split; [lia|]. split.
  - intros a [Hin|Hge]%Ha2; [by apply Ha1|right; lia].
  - intros a Hnot Hlt. rewrite Hf2; [by apply Hf1| |lia].
    intros [Hin|Hge]%Ha1; [done|lia].
Qed.

Lemma grows_owns m s m' s' so :
  grows m s m' s' → owns (cells m) so →
  Forall (λ a, (a < brk m)%positive) (addrs so) →
  (∀ a, a ∈ addrs so → a ∉ addrs s) →
  owns (cells m') so ∧
  Forall (λ a, (a < brk m')%positive) (addrs so) ∧
  (∀ a, a ∈ addrs so → a ∉ addrs s').
Proof.
  intros (Hb & Ha & Hf) Ho Hlt Hdisj. rewrite Forall_forall in Hlt. split; [|split].
  - apply (owns_frame (cells m)); [|done]. intros a Hin.
    apply Hf; [by apply Hdisj|by apply Hlt].
  - apply Forall_forall. intros a Hin. apply Hlt in Hin. lia.
  - intros a Hin [Hin'|Hge]%Ha; [by eapply Hdisj|]. apply Hlt in Hin. lia.
Qed.

Lemma insert_grows m this s value :
  tree_at m this s →
  (tcontains value (erase s) = false → m_size this < SIZE_MAX) →
  ∃ this' m',
    insert this value m = Ok ((negb (tcontains value (erase s)), this'), m') ∧
    tree_at m' this' (linsert (brk m) value s) ∧
    grows m s m' (linsert (brk m) value s).
Proof.
  intros Ht Hroom.
  destruct (insert_tree_at m this s value Ht Hroom)
    as (this' & m' & Hrun & Ht' & _ & _ & Hb & Hf).
  exists this', m'. split; [done|]. split; [done|]. split; [done|]. split; [|done].
  intros a [->|Hin]%addrs_linsert%elem_of_cons; [right; lia|by left].
Qed.

Lemma insert_all_tree_at vs : ∀ m this s,
  tree_at m this s →
  Z.of_nat (nodes (erase s) + length vs) ≤ SIZE_MAX →
  ∃ this' m' s',
    insert_all this vs m = Ok ((tinsert_results vs (erase s), this'), m') ∧
    tree_at m' this' s' ∧
    erase s' = tinsert_list vs (erase s) ∧
    grows m s m' s'.
Proof.
  induction vs as [|v vs IH]; intros m this s Ht Hroom.
  { exists this, m, s. split; [done|]. split; [done|]. split; [done|]. apply grows_refl. }
  assert (Hsz : m_size this = Z.of_nat (nodes (erase s))) by apply Ht.
  destruct (insert_grows m this s v Ht) as (this1 & m1 & Hrun & Ht1 & Hg1).
  { intros _. rewrite Hsz. simpl in Hroom. lia. }
  destruct (IH m1 this1 _ Ht1) as (this' & m' & s' & Hrun' & Ht' & He & Hg').
  { rewrite erase_linsert. simpl in Hroom.
    destruct (tcontains v (erase s)) eqn:Hc.
    - rewrite tinsert_present by done. lia.
    - rewrite tinsert_nodes by done. lia. }
  exists this', m', s'. split; [|split; [done|split]].
  - cbn [insert_all tinsert_results]. unfold bind at 1. rewrite Hrun.
    unfold bind at 1. cbn [snd]. rewrite Hrun'. rewrite erase_linsert. done.
  - by rewrite He, erase_linsert.
  - by eapply grows_trans.
Qed.

Lemma insert_all_app xs ys this m :
  insert_all this (xs ++ ys) m =
  (let* r1 := insert_all this xs in
   let* r2 := insert_all (snd r1) ys in
   ret (fst r1 ++ fst r2, snd r2)) m.
Proof.
  revert this m. induction xs as [|x xs IH]; intros this m.
  - simpl. unfold bind, ret. simpl. by destruct (insert_all this ys m) as [[[] ]| |].
  - cbn [app insert_all]. unfold bind in *.
    destruct (insert this x m) as [[r m1]| |]; [|done|done].
    rewrite IH. unfold ret.
    destruct (insert_all (snd r) xs m1) as [[r1 m2]| |]; [|done|done]. simpl.
    by destruct (insert_all (snd r1) ys m2) as [[r2 m3]| |].
Qed.

Lemma tinsert_nodes_le value t : (nodes (tinsert value t) ≤ S (nodes t))%nat.
Proof.
  destruct (tcontains value t) eqn:Hc.
  - rewrite tinsert_present by done. lia.
  - rewrite tinsert_nodes by done. lia.
Qed.

Lemma tinsert_list_nodes_le vs : ∀ t,
  (nodes (tinsert_list vs t) ≤ nodes t + length vs)%nat.
Proof.
  induction vs as [|v vs IH]; intros t; simpl; [lia|].
  specialize (IH (tinsert v t)). pose proof (tinsert_nodes_le v t).
  lia.
Qed.

(** The copy walk is the insertion of the pre-order listing. *)
Lemma prefix_insert_owns so : ∀ fuel m this st,
  owns (cells m) so →
  Forall (λ a, (a < brk m)%positive) (addrs so) →
  tree_at m this st →
  (∀ a, a ∈ addrs so → a ∉ addrs st) →
  (height (erase so) < fuel)%nat →
  Z.of_nat (nodes (erase st) + nodes (erase so)) ≤ SIZE_MAX →
  prefix_insert fuel this (lroot so) m =
  (let* r := insert_all this (preorder (erase so)) in ret (snd r)) m.
Proof.
  induction so as [|a l IHl x r IHr]; intros [|fuel] m this st Ho Hlt Ht Hdisj Hf Hroom;
    simpl in Hf; try lia; [done|].
  assert (Hsz : m_size this = Z.of_nat (nodes (erase st))) by apply Ht.
  assert (Hsub : ∀ s' : layout,
    (∀ a', a' ∈ addrs (LNode a l x r) → a' ∉ addrs s') →
    (∀ a', a' ∈ addrs l → a' ∉ addrs s') ∧ (∀ a', a' ∈ addrs r → a' ∉ addrs s')).
  { intros s' H. split; intros a' Hin; apply H; simpl;
      rewrite elem_of_cons, elem_of_app; tauto. }
  cbn [erase nodes preorder] in Hroom |- *.
  (* the root's value *)
  destruct (insert_grows m this st x Ht) as (this1 & m1 & Hrun1 & Ht1 & Hg1).
  { intros _. lia. }
  pose proof (tinsert_nodes_le x (erase st)) as Hn1.
  rewrite <- (erase_linsert (brk m)) in Hn1.
  destruct (grows_owns _ _ _ _ _ Hg1 Ho Hlt Hdisj) as (Ho1 & Hlt1 & Hdisj1).
  (* the left subtree *)
  destruct (insert_all_tree_at (preorder (erase l)) m1 this1 _ Ht1)
    as (this2 & m2 & s2 & Hrun2 & Ht2 & He2 & Hg2).
  { rewrite preorder_length. lia. }
  pose proof (tinsert_list_nodes_le (preorder (erase l)) (erase (linsert (brk m) x st))) as Hn2.
  rewrite <- He2, preorder_length in Hn2.
  destruct (grows_owns _ _ _ _ _ Hg2 Ho1 Hlt1 Hdisj1) as (Ho2 & Hlt2 & Hdisj2).
  destruct Ho as (Ha & _ & _). destruct Ho1 as (Ha1 & Hl1 & _).
  destruct Ho2 as (Ha2 & _ & Hr2).
  simpl in Hlt1, Hlt2.
  apply Forall_cons in Hlt1 as [_ [Hltl1 _]%Forall_app].
  apply Forall_cons in Hlt2 as [_ [_ Hltr2]%Forall_app].
  apply Hsub in Hdisj1 as [Hdl1 _]. apply Hsub in Hdisj2 as [_ Hdr2].
  cbn [prefix_insert lroot].
  unfold bind at 1. rewrite (deref_live _ _ _ Ha). cbn [data].
  unfold bind at 1. rewrite Hrun1. cbn [snd].
  unfold bind at 1. rewrite (deref_live _ _ _ Ha1). cbn [left].
  unfold bind at 1.
  rewrite (IHl fuel m1 this1 (linsert (brk m) x st)); [|done|done|done|done|lia|lia].
  unfold bind at 1. rewrite Hrun2. unfold ret at 1. cbn [snd].
  unfold bind at 1. rewrite (deref_live _ _ _ Ha2). cbn [right].
  rewrite (IHr fuel m2 this2 s2); [|done|done|done|done|lia|lia].
  cbn [insert_all]. unfold bind. rewrite Hrun1. cbn [snd].
  rewrite insert_all_app. unfold bind. rewrite Hrun2. cbn [snd]. unfold ret.
  by destruct (insert_all this2 (preorder (erase r)) m2) as [[r2 m3]| |].
Qed.

Lemma tcontains_decide value t :
  BST t → tcontains value t = bool_decide (value ∈ values t).
Proof.
  intros Hb. destruct (tcontains value t) eqn:Hc; symmetry.
  - apply bool_decide_eq_true_2. by apply tcontains_values.
  - apply bool_decide_eq_false_2. intros Hin.
    rewrite (tcontains_BST _ _ Hb Hin) in Hc. done.
Qed.

Lemma tree_at_default m : tree_at m BinarySearchTree_default LNil.
Proof.
  unfold tree_at. simpl. split; [done|split; [done|split; [constructor|]]].
  split; [constructor|]. split; [done|]. unfold SIZE_MAX. lia.
Qed.

Lemma tinsert_results_fresh vs : ∀ t,
  NoDup vs → (∀ v, v ∈ vs → tcontains v t = false) →
  tinsert_results vs t = repeat true (length vs) ∧
  nodes (tinsert_list vs t) = (nodes t + length vs)%nat.
Proof.
  induction vs as [|v vs IH]; intros t Hnd Hfresh; simpl; [split; [done|lia]|].
  apply NoDup_cons in Hnd as [Hv Hnd].
  rewrite (Hfresh v) by (by left). simpl.
  destruct (IH (tinsert v t) Hnd) as [-> Hn].
  { intros w Hw. rewrite tcontains_tinsert, (Hfresh w) by (by right).
    rewrite bool_decide_eq_false_2; [done|]. by intros ->. }
  split; [done|]. change (fold_left _ vs (tinsert v t)) with (tinsert_list vs (tinsert v t)).
  rewrite Hn, tinsert_nodes; [lia|]. apply Hfresh. by left.
Qed.

(** What the copy constructor does to a well-formed search tree. *)
Lemma copy_tree_at m other so :
  tree_at m other so → BST (erase so) →
  ∃ this m' st,
    BinarySearchTree_copy other m = Ok (this, m') ∧
    insert_all BinarySearchTree_default (preorder (erase so)) m
      = Ok ((tinsert_results (preorder (erase so)) Leaf, this), m') ∧
    tree_at m' this st ∧ erase st = erase so ∧ tree_at m' other so.
Proof.
  intros Ht Hbst.
  destruct Ht as (Hroot & Ho & Hnd & Hlt & Hsize & Hmax).
  pose proof (tree_at_default m) as Hd.
  destruct (insert_all_tree_at (preorder (erase so)) m _ _ Hd)
    as (this & m' & st & Hrun & Ht' & He & Hg).
  { rewrite preorder_length. simpl. lia. }
  destruct (grows_owns _ _ _ _ so Hg Ho Hlt) as (Ho' & Hlt' & _).
  { intros a _. apply not_elem_of_nil. }
  exists this, m', st. split; [|split; [done|split; [done|split]]].
  - unfold BinarySearchTree_copy, bind at 1, get_budget. rewrite Hroot.
    erewrite (prefix_insert_owns so _ m _ LNil); try done.
    + unfold bind. change (mkBST None 0) with BinarySearchTree_default.
      by rewrite Hrun.
    + intros a _. apply not_elem_of_nil.
    + by apply owns_budget.
    + simpl. lia.
  - rewrite He. simpl. by apply tinsert_list_preorder.
  - unfold tree_at. by split_and!.
Qed.

(** The copy lives in cells allocated by the copy constructor, so it
    shares no node with the original, and the cells that were there before
    the call are as they were. *)
Lemma copy_tree_at_fresh m other so :
  tree_at m other so → BST (erase so) →
  ∃ this m' st,
    BinarySearchTree_copy other m = Ok (this, m') ∧
    insert_all BinarySearchTree_default (preorder (erase so)) m
      = Ok ((tinsert_results (preorder (erase so)) Leaf, this), m') ∧
    tree_at m' this st ∧ erase st = erase so ∧ tree_at m' other so ∧
    (∀ a, a ∈ addrs so → a ∉ addrs st) ∧
    (∀ a, a ∈ addrs st → (brk m ≤ a)%positive) ∧
    (∀ a, (a < brk m)%positive → cells m' !! a = cells m !! a).
Proof.
  intros Ht Hbst.
  pose proof Ht as (Hroot & Ho & Hnd & Hlt & Hsize & Hmax).
  destruct (insert_all_tree_at (preorder (erase so)) m _ _ (tree_at_default m))
    as (this & m' & st & Hrun & Ht' & He & Hg).
  { rewrite preorder_length. simpl. lia. }
  destruct (grows_owns _ _ _ _ so Hg Ho Hlt) as (Ho' & Hlt' & Hdisj).
  { intros a _. apply not_elem_of_nil. }
  assert (BinarySearchTree_copy other m = Ok (this, m')) as Hcopy.
  { unfold BinarySearchTree_copy, bind at 1, get_budget. rewrite Hroot.
    erewrite (prefix_insert_owns so _ m _ LNil).
    + unfold bind. change (mkBST None 0) with BinarySearchTree_default.
      by rewrite Hrun.
    + done.
    + done.
    + apply tree_at_default.
    + intros a _. apply not_elem_of_nil.
    + by apply owns_budget.
    + simpl. lia. }
  destruct Hg as (_ & Hnew & Hframe).
  exists this, m', st. split; [done|]. split; [done|]. split; [done|].
  split; [rewrite He; simpl; by apply tinsert_list_preorder|].
  split; [unfold tree_at; by split_and!|]. split; [done|]. split.
  - intros a Hin. destruct (Hnew a Hin) as [Hnil|Hge]; [|done].
    by apply elem_of_nil in Hnil.
  - intros a Hlow. apply Hframe; [apply not_elem_of_nil|done].
Qed.

Lemma remove_when_absent this value m m' :
  contains this value m = Ok (false, m') → remove this value m = Ok ((false, this), m).
Proof.
  unfold contains, remove, bind, get_budget. intros Hc.
  by rewrite (remove_find_absent _ _ _ _ _ Hc).
Qed.

(** Insert-only histories keep the tree valid and the counter exact. *)
Lemma insert_all_invariants m vs :
  Z.of_nat (length vs) ≤ SIZE_MAX →
  ∃ this m',
    insert_all BinarySearchTree_default vs m
      = Ok ((tinsert_results vs Leaf, this), m') ∧
    represents m' this (tinsert_list vs Leaf) ∧ BST (tinsert_list vs Leaf) ∧
    reachable_nodes this m' = Ok (size this, m').
Proof.
  intros Hroom.
  destruct (insert_all_tree_at vs m _ _ (tree_at_default m))
    as (this & m' & s & Hrun & Ht & He & _); [simpl; lia|].
  exists this, m'. split; [done|]. split; [by exists s|].
  split; [|by eapply reachable_nodes_tree_at].
  clear. generalize Leaf, (I : BST Leaf).
  induction vs as [|v vs IH]; intros t Ht; [done|].
  simpl. apply IH. by apply tinsert_BST.
Qed.

(** ** The paths of [remove] that relink: sanity runs *)

(** The right child is the successor and is spliced out directly. *)
Example remove_direct_successor :
  ∃ this m,
    run_ops BinarySearchTree_default [OpInsert 5; OpInsert 8; OpRemove 5] initial_memory
      = Ok (this, m) ∧
    represents m this (Br Leaf 8 Leaf) ∧
    contains this 5 m = Ok (false, m).
Proof.
  eexists _, _. split; [reflexivity|]. split; [|done].
  exists (LNode 1%positive LNil 8 LNil). split; [|done].
  unfold tree_at, SIZE_MAX. simpl.
  split_and!; try done; [apply NoDup_singleton|by apply Forall_singleton].
Qed.

(** The successor sits down a left chain and has a right child, which takes
    its place. *)
Example remove_successor_with_child :
  ∃ this m,
    run_ops BinarySearchTree_default
      [OpInsert 5; OpInsert 9; OpInsert 6; OpInsert 7; OpRemove 5] initial_memory
      = Ok (this, m) ∧
    reachable_nodes this m = Ok (size this, m) ∧
    contains this 5 m = Ok (false, m) ∧
    contains this 6 m = Ok (true, m) ∧
    contains this 7 m = Ok (true, m) ∧
    contains this 9 m = Ok (true, m).
Proof. eexists _, _. split; [reflexivity|done]. Qed.

(** No right child: the left child is the predecessor and is spliced out. *)
Example remove_direct_predecessor :
  ∃ this m,
    run_ops BinarySearchTree_default
      [OpInsert 5; OpInsert 3; OpInsert 1; OpRemove 5] initial_memory
      = Ok (this, m) ∧
    reachable_nodes this m = Ok (size this, m) ∧
    contains this 5 m = Ok (false, m) ∧
    contains this 3 m = Ok (true, m) ∧
    contains this 1 m = Ok (true, m).
Proof. eexists _, _. split; [reflexivity|done]. Qed.

(** ** The properties of the specification *)

(** C4.  On a well-formed search tree whose counter has room, [insert]
    inserts the value exactly when it is absent: either the value is not in
    the tree ([contains] is false), the call returns true, the size grows by
    exactly one and the tree holds the old values plus the new one; or the
    value is in the tree ([contains] is true), the call returns false and
    neither the object nor the store changes. *)
Theorem insert_iff_absent m this t value :
  represents m this t → BST t → size this < SIZE_MAX →
  ((value ∉ values t) ∧
   contains this value m = Ok (false, m) ∧
   ∃ this' m' t',
     insert this value m = Ok ((true, this'), m') ∧
     size this' = size this + 1 ∧
     represents m' this' t' ∧ values t' ≡ₚ value :: values t ∧ BST t' ∧
     contains this' value m' = Ok (true, m'))
  ∨ (value ∈ values t ∧
     contains this value m = Ok (true, m) ∧
     insert this value m = Ok ((false, this), m)).
Proof.
  intros (s & Ht & <-) Hbst Hroom.
  destruct (insert_tree_at m this s value Ht) as (this' & m' & Hrun & Ht' & Hp & Ha & _).
  { by intros _. }
  pose proof (contains_tree_at _ _ _ value Ht) as Hc.
  pose proof (contains_tree_at _ _ _ value Ht') as Hc'.
  rewrite erase_linsert, tcontains_tinsert, bool_decide_eq_true_2 in Hc' by done.
  rewrite (tcontains_decide _ _ Hbst) in Hrun, Hp, Ha, Hc.
  destruct (decide (value ∈ values (erase s))) as [Hin|Hnin].
  - right. split; [done|]. rewrite bool_decide_eq_true_2 in Hrun, Hp, Hc by done.
    destruct (Hp eq_refl) as [-> ->]. done.
  - left. split; [done|]. rewrite bool_decide_eq_false_2 in Hrun, Ha, Hc by done.
    split; [done|].
    destruct (Ha eq_refl) as [Hsz _].
    exists this', m', (tinsert value (erase s)). split; [done|]. split; [done|].
    split; [|split; [|split; [|done]]].
    + exists (linsert (brk m) value s). split; [done|apply erase_linsert].
    + apply tinsert_values. rewrite tcontains_decide by done.
      by apply bool_decide_eq_false_2.
    + by apply tinsert_BST.
Qed.

Lemma insert_iff_absent_witness :
  represents example_memory example_object example_tree ∧
  BST example_tree ∧
  size example_object < SIZE_MAX ∧
  (((8 ∉ values example_tree) ∧
    contains example_object 8 example_memory = Ok (false, example_memory) ∧
    ∃ this' m' t',
      insert example_object 8 example_memory = Ok ((true, this'), m') ∧
      size this' = size example_object + 1 ∧
      represents m' this' t' ∧ values t' ≡ₚ 8 :: values example_tree ∧ BST t' ∧
      contains this' 8 m' = Ok (true, m'))
   ∨ (8 ∈ values example_tree ∧
      contains example_object 8 example_memory = Ok (true, example_memory) ∧
      insert example_object 8 example_memory = Ok ((false, example_object), example_memory))).
Proof.
  assert (represents example_memory example_object example_tree) as Hrep
    by example_represents.
  assert (BST example_tree) as Hbst by (apply tvalid_BST; reflexivity).
  assert (size example_object < SIZE_MAX) as Hroom.
  { unfold SIZE_MAX. simpl. lia. }
  split; [exact Hrep|]. split; [exact Hbst|]. split; [exact Hroom|].
  exact (insert_iff_absent example_memory example_object example_tree 8 Hrep Hbst Hroom).
Defined.

(** C5.  Inserting distinct values, in any order, into an empty tree: every
    insert succeeds, [size] is the number of inserts, and [contains] answers
    true exactly for the inserted values. *)
Theorem insert_distinct_values m vs :
  NoDup vs → Z.of_nat (length vs) ≤ SIZE_MAX →
  ∃ this m',
    insert_all BinarySearchTree_default vs m = Ok ((repeat true (length vs), this), m') ∧
    size this = Z.of_nat (length vs) ∧
    ∀ w, contains this w m' = Ok (bool_decide (w ∈ vs), m').
Proof.
  intros Hnd Hroom.
  destruct (insert_all_tree_at vs m _ _ (tree_at_default m))
    as (this & m' & s & Hrun & Ht & He & _); [simpl; lia|].
  destruct (tinsert_results_fresh vs Leaf Hnd) as [Hrs Hn]; [done|].
  simpl in Hrun, He. rewrite Hrs in Hrun.
  exists this, m'. split; [done|]. split.
  - destruct Ht as (_ & _ & _ & _ & Hsz & _). unfold size.
    rewrite Hsz, He, Hn. done.
  - intros w. rewrite (contains_tree_at _ _ _ _ Ht), He, tcontains_tinsert_list.
    simpl. by rewrite orb_false_r.
Qed.

Lemma insert_distinct_values_witness :
  NoDup [5; 3; 8] ∧
  ∃ this m',
    insert_all BinarySearchTree_default [5; 3; 8] initial_memory
      = Ok ((repeat true (length [5; 3; 8]), this), m') ∧
    size this = Z.of_nat (length [5; 3; 8]) ∧
    ∀ w, contains this w m' = Ok (bool_decide (w ∈ [5; 3; 8]), m').
Proof.
  assert (NoDup [5; 3; 8]) as Hnd by by_decision.
  split; [exact Hnd|].
  apply (insert_distinct_values initial_memory [5; 3; 8] Hnd).
  unfold SIZE_MAX. simpl. lia.
Defined.

(** C6.  Removing a value that is not in the tree returns false and leaves
    the object and the whole store as they were. *)
Theorem remove_absent_unchanged m this t value :
  represents m this t → value ∉ values t →
  remove this value m = Ok ((false, this), m).
Proof.
  intros (s & Ht & <-) Hnin. apply (remove_when_absent _ _ _ m).
  rewrite (contains_tree_at _ _ _ _ Ht).
  destruct (tcontains value (erase s)) eqn:Hc; [|done].
  by apply tcontains_values in Hc.
Qed.

Lemma remove_absent_unchanged_witness :
  represents example_memory example_object example_tree ∧
  (7 ∉ values example_tree) ∧
  remove example_object 7 example_memory = Ok ((false, example_object), example_memory).
Proof.
  assert (represents example_memory example_object example_tree) as Hrep
    by example_represents.
  assert (7 ∉ values example_tree) as Hnin by by_decision.
  split; [exact Hrep|]. split; [exact Hnin|].
  exact (remove_absent_unchanged example_memory example_object example_tree 7 Hrep Hnin).
Defined.

(** C8.  Copying a valid tree: the copy is what inserting the pre-order
    listing of the original (node, left subtree, right subtree) into an empty
    tree gives; it has the size of the original, and [contains] gives the same
    answer on the copy and on the original for every value. *)
Theorem copy_same_size_and_keys m other t :
  represents m other t → BST t →
  ∃ this m' rs,
    BinarySearchTree_copy other m = Ok (this, m') ∧
    insert_all BinarySearchTree_default (preorder t) m = Ok ((rs, this), m') ∧
    size this = size other ∧
    ∀ v, ∃ b, contains this v m' = Ok (b, m') ∧
              contains other v m' = Ok (b, m') ∧
              contains other v m = Ok (b, m).
Proof.
  intros (so & Ht & <-) Hbst.
  destruct (copy_tree_at m other so Ht Hbst) as (this & m' & st & Hcopy & Hall & Ht' & He & Hto).
  exists this, m', (tinsert_results (preorder (erase so)) Leaf).
  split; [done|]. split; [done|]. split.
  - destruct Ht as (_ & _ & _ & _ & Hsz & _). destruct Ht' as (_ & _ & _ & _ & Hsz' & _).
    unfold size. by rewrite Hsz, Hsz', He.
  - intros v. exists (tcontains v (erase so)).
    rewrite (contains_tree_at _ _ _ _ Ht'), (contains_tree_at _ _ _ _ Hto),
      (contains_tree_at _ _ _ _ Ht), He. done.
Qed.

Lemma copy_same_size_and_keys_witness :
  represents example_memory example_object example_tree ∧
  BST example_tree ∧
  ∃ this m' rs,
    BinarySearchTree_copy example_object example_memory = Ok (this, m') ∧
    insert_all BinarySearchTree_default (preorder example_tree) example_memory
      = Ok ((rs, this), m') ∧
    size this = size example_object ∧
    ∀ v, ∃ b, contains this v m' = Ok (b, m') ∧
              contains example_object v m' = Ok (b, m') ∧
              contains example_object v example_memory = Ok (b, example_memory).
Proof.
  assert (represents example_memory example_object example_tree) as Hrep
    by example_represents.
  assert (BST example_tree) as Hbst by (apply tvalid_BST; reflexivity).
  split; [exact Hrep|]. split; [exact Hbst|].
  exact (copy_same_size_and_keys example_memory example_object example_tree Hrep Hbst).
Defined.

(** C9.  Move construction: the new object is the old one field for field
    (same root pointer, same size; the store is not touched), and the source
    is left with size 0 and [contains] false for every value. *)
Theorem move_transfers m other :
  fst (BinarySearchTree_move other) = other ∧
  size (snd (BinarySearchTree_move other)) = 0 ∧
  m_root (snd (BinarySearchTree_move other)) = None ∧
  (∀ v, contains (snd (BinarySearchTree_move other)) v m = Ok (false, m)) ∧
  (∀ v, contains (fst (BinarySearchTree_move other)) v m = contains other v m).
Proof.
  destruct other as [root sz]. simpl. split_and!; done.
Qed.

(** C10.  The copy of a tree that satisfies the ordering invariant is
    built by inserting the pre-order listing of the original into an empty
    tree, in nodes that the constructor allocates: the cells that were in the
    store before the call are unchanged and every node of the copy is a new
    one.  The copy has the shape of the original node for node: it holds the
    same tree value, and [operator==] on the copy and the original returns
    true. *)
Theorem copy_equals_original m other t :
  represents m other t → BST t →
  ∃ this m' rs,
    BinarySearchTree_copy other m = Ok (this, m') ∧
    insert_all BinarySearchTree_default (preorder t) m = Ok ((rs, this), m') ∧
    (∀ a, (a < brk m)%positive → cells m' !! a = cells m !! a) ∧
    (∃ st so,
       tree_at m' this st ∧ erase st = t ∧
       tree_at m' other so ∧ erase so = t ∧
       (∀ a, a ∈ addrs st → (brk m ≤ a)%positive) ∧
       (∀ a, a ∈ addrs so → (a < brk m)%positive) ∧
       length (addrs st) = nodes t) ∧
    (t ≠ Leaf → m_root this ≠ m_root other) ∧
    represents m' this t ∧ represents m' other t ∧
    equal this other m' = Ok (true, m') ∧ not_equal this other m' = Ok (false, m').
Proof.
  intros (so & Ht & <-) Hbst.
  destruct (copy_tree_at_fresh m other so Ht Hbst)
    as (this & m' & st & Hcopy & Hall & Ht' & He & Hto & Hdisj & Hnew & Hframe).
  assert (equal this other m' = Ok (true, m')) as Heq.
  { destruct Ht' as (Hr1 & Ho1 & Hnd1 & _). destruct Hto as (Hr2 & Ho2 & _).
    unfold equal, bind, get_budget. rewrite Hr1, Hr2.
    apply prefix_comp_same; try done. by apply owns_budget. }
  assert (∀ a, a ∈ addrs so → (a < brk m)%positive) as Hold.
  { destruct Ht as (_ & _ & _ & Hlt & _). by rewrite Forall_forall in Hlt. }
  exists this, m', (tinsert_results (preorder (erase so)) Leaf).
  split; [done|]. split; [done|]. split; [done|]. split; [|split].
  - exists st, so. split; [done|]. split; [done|]. split; [done|]. split; [done|].
    split; [done|]. split; [done|]. rewrite <- He. apply addrs_length.
  - intros Hne. destruct Ht' as (Hr1 & _). destruct Hto as (Hr2 & _).
    rewrite Hr1, Hr2. clear Hr1 Hr2.
    destruct so as [|a2 l2 x2 r2]; [done|].
    destruct st as [|a1 l1 x1 r1]; [done|]. simpl.
    intros [= ->]. apply (Hdisj a2); simpl; left.
  - split; [by exists st|]. split; [by exists so|].
    split; [done|]. unfold not_equal, bind. by rewrite Heq.
Qed.

Lemma copy_equals_original_witness :
  represents example_memory example_object example_tree ∧
  BST example_tree ∧
  ∃ this m' rs,
    BinarySearchTree_copy example_object example_memory = Ok (this, m') ∧
    insert_all BinarySearchTree_default (preorder example_tree) example_memory
      = Ok ((rs, this), m') ∧
    (∀ a, (a < brk example_memory)%positive →
       cells m' !! a = cells example_memory !! a) ∧
    (∃ st so,
       tree_at m' this st ∧ erase st = example_tree ∧
       tree_at m' example_object so ∧ erase so = example_tree ∧
       (∀ a, a ∈ addrs st → (brk example_memory ≤ a)%positive) ∧
       (∀ a, a ∈ addrs so → (a < brk example_memory)%positive) ∧
       length (addrs st) = nodes example_tree) ∧
    (example_tree ≠ Leaf → m_root this ≠ m_root example_object) ∧
    represents m' this example_tree ∧ represents m' example_object example_tree ∧
    equal this example_object m' = Ok (true, m') ∧
    not_equal this example_object m' = Ok (false, m').
Proof.
  assert (represents example_memory example_object example_tree) as Hrep
    by example_represents.
  assert (BST example_tree) as Hbst by (apply tvalid_BST; reflexivity).
  split; [exact Hrep|]. split; [exact Hbst|].
  exact (copy_equals_original example_memory example_object example_tree Hrep Hbst).
Defined.

Lemma sort_1_to_7 arr :
  arr ≡ₚ [1; 2; 3; 4; 5; 6; 7] → merge_sort Z.le arr = [1; 2; 3; 4; 5; 6; 7].
Proof.
  intros Hp. apply (Sorted_unique Z.le).
  - apply Sorted_merge_sort. apply _.
  - repeat constructor; lia.
  - by rewrite merge_sort_Permutation.
Qed.

(** The bisection over the sorted array 1..7 visits the midpoints depth
    first. *)
Lemma bisection_1_to_7 this m :
  bisection_insert 8 this [1; 2; 3; 4; 5; 6; 7] 0 7 m =
  (let* r := insert_all this [4; 2; 1; 3; 6; 5; 7] in ret (snd r)) m.
Proof.
  lazy -[insert].
  repeat match goal with
         | |- context [insert ?t ?v ?m0] =>
           destruct (insert t v m0) as [[[? ?] ?]| |]; try done
         end.
Qed.

(** C7.  Bulk construction from the values 1..7, given in any order, builds
    the tree with root 4, children 2 and 6 and leaves 1, 3, 5, 7; its height 3
    is [log2_up (7 + 1)], the least height a tree of seven nodes can have; and
    it is the tree that inserting 4, 2, 6, 1, 3, 5, 7 in this order produces
    ([operator==] returns true on the two). *)
Theorem bulk_1_to_7 m arr :
  arr ≡ₚ [1; 2; 3; 4; 5; 6; 7] →
  ∃ this m',
    BinarySearchTree_bulk arr m = Ok (this, m') ∧
    represents m' this tree_1_to_7 ∧
    (∃ n, deref (m_root this) m' = Ok (n, m') ∧ data n = 4) ∧
    size this = 7 ∧
    height tree_1_to_7 = 3%nat ∧
    Z.log2_up (7 + 1) = 3 ∧
    (∀ t, nodes t = 7%nat → (3 ≤ height t)%nat) ∧
    ∃ that m'' rs,
      insert_all BinarySearchTree_default [4; 2; 6; 1; 3; 5; 7] m' = Ok ((rs, that), m'') ∧
      represents m'' that tree_1_to_7 ∧
      equal this that m'' = Ok (true, m'').
Proof.
  intros Hp.
  destruct (insert_all_tree_at [4; 2; 1; 3; 6; 5; 7] m _ _ (tree_at_default m))
    as (this & m' & s & Hrun & Ht & He & _).
  { unfold SIZE_MAX. simpl. lia. }
  destruct (insert_all_tree_at [4; 2; 6; 1; 3; 5; 7] m' _ _ (tree_at_default m'))
    as (that & m'' & s' & Hrun' & Ht' & He' & Hg).
  { unfold SIZE_MAX. simpl. lia. }
  change (erase s = tree_1_to_7) in He. change (erase s' = tree_1_to_7) in He'.
  exists this, m'. split; [|split; [|split; [|split; [|split; [|split; [|split]]]]]].
  - unfold BinarySearchTree_bulk. rewrite (sort_1_to_7 _ Hp).
    rewrite (Permutation_length Hp). change (S (length _)) with 8%nat.
    change (Z.of_nat (length _)) with 7.
    change (mkBST None 0) with BinarySearchTree_default.
    rewrite bisection_1_to_7. unfold bind. by rewrite Hrun.
  - by exists s.
  - destruct Ht as (Hroot & Ho & _). rewrite Hroot.
    destruct s as [|a l x r]; [done|]. injection He as _ -> _.
    destruct Ho as (Ha & _). eexists. split; [by apply deref_live|done].
  - destruct Ht as (_ & _ & _ & _ & Hsz & _). unfold size. by rewrite Hsz, He.
  - done.
  - done.
  - intros t Hn. pose proof (nodes_lt_pow_height t) as Hlt. rewrite Hn in Hlt.
    destruct (height t) as [|[|[|h]]]; simpl in Hlt; lia.
  - eexists that, m'', _. split; [exact Hrun'|]. split; [by exists s'|].
    destruct Ht as (Hr1 & Ho1 & Hnd1 & Hlt1 & _). destruct Ht' as (Hr2 & Ho2 & _).
    destruct (grows_owns _ _ _ _ s Hg Ho1 Hlt1) as (Ho1' & _ & _).
    { intros a _. apply not_elem_of_nil. }
    unfold equal, bind, get_budget. rewrite Hr1, Hr2.
    apply prefix_comp_same; try done; [congruence|]. by apply owns_budget.
Qed.

Lemma bulk_1_to_7_witness :
  ∃ this m',
    BinarySearchTree_bulk [3; 7; 1; 6; 2; 5; 4] initial_memory = Ok (this, m') ∧
    represents m' this tree_1_to_7 ∧
    (∃ n, deref (m_root this) m' = Ok (n, m') ∧ data n = 4) ∧
    size this = 7 ∧
    height tree_1_to_7 = 3%nat ∧
    Z.log2_up (7 + 1) = 3 ∧
    (∀ t, nodes t = 7%nat → (3 ≤ height t)%nat) ∧
    ∃ that m'' rs,
      insert_all BinarySearchTree_default [4; 2; 6; 1; 3; 5; 7] m' = Ok ((rs, that), m'') ∧
      represents m'' that tree_1_to_7 ∧
      equal this that m'' = Ok (true, m'').
Proof.
  apply (bulk_1_to_7 initial_memory [3; 7; 1; 6; 2; 5; 4]).
  by_decision.
Defined.

(** C1.  Removing the only value of a one-node tree returns true and brings
    the size to 0, but the root pointer keeps the address of the released
    node: the following [contains] reads through it. *)
Theorem remove_leaf_keeps_link :
  ∃ this m this' m',
    insert BinarySearchTree_default 5 initial_memory = Ok ((true, this), m) ∧
    represents m this (Br Leaf 5 Leaf) ∧
    remove this 5 m = Ok ((true, this'), m') ∧
    size this' = 0 ∧
    m_root this' = Some 1%positive ∧
    cells m' !! 1%positive = None ∧
    contains this' 5 m' = Undefined.
Proof.
  eexists _, _, _, _. split; [reflexivity|]. split; [|split; [reflexivity|done]].
  exists (LNode 1%positive LNil 5 LNil). split; [|done].
  unfold tree_at, SIZE_MAX. simpl.
  split_and!; try done; [apply NoDup_singleton|by apply Forall_singleton].
Qed.

(** C2.  After inserting 5, 3 and 8 and removing the leaf 3, the node 5
    still links the released node, and the validity check reads through that
    link, whatever the bounds handed down are.  The same happens when the
    spliced-out successor has no right child (insert 5, 8, 6; remove 5): the
    check reads through the link that node 8 keeps, and under no conversion
    of the bounds does it return true. *)
Theorem isValid_after_remove_leaf :
  (∃ this m,
     run_ops BinarySearchTree_default
       [OpInsert 5; OpInsert 3; OpInsert 8; OpRemove 3] initial_memory = Ok (this, m) ∧
     cells m !! 1%positive = Some (mkNode 5 (Some 3%positive) (Some 2%positive)) ∧
     cells m !! 2%positive = None ∧
     isValid address_of this m = Undefined ∧
     (∀ as_bound, isValid as_bound this m = Undefined)) ∧
  (∃ this m,
     run_ops BinarySearchTree_default
       [OpInsert 5; OpInsert 8; OpInsert 6; OpRemove 5] initial_memory = Ok (this, m) ∧
     cells m !! 2%positive = Some (mkNode 8 None (Some 3%positive)) ∧
     cells m !! 3%positive = None ∧
     isValid address_of this m = Undefined ∧
     (∀ as_bound,
        isValid as_bound this m = Undefined ∨
        isValid as_bound this m = Ok (false, m))).
Proof.
  split; eexists _, _; (split; [reflexivity|]);
    (split; [done|]); (split; [done|]); (split; [done|]); intros as_bound.
  - by apply (isValid_dangling_left _ _ _ 1%positive
                (mkNode 5 (Some 3%positive) (Some 2%positive)) 2%positive).
  - apply (isValid_dangling_right_left _ _ _ 1%positive
             (mkNode 6 (Some 2%positive) None) 2%positive
             (mkNode 8 None (Some 3%positive)) 3%positive); done.
Qed.

(** C3.  After inserting 5 and 3 and removing 3 the counter is 1, while the
    root still links two nodes, one of them released: counting the nodes
    linked from the root reads released memory, and so does the next
    [insert 2]. *)
Theorem size_after_remove_leaf :
  ∃ this m,
    run_ops BinarySearchTree_default [OpInsert 5; OpInsert 3; OpRemove 3] initial_memory
      = Ok (this, m) ∧
    size this = 1 ∧
    cells m !! 1%positive = Some (mkNode 5 None (Some 2%positive)) ∧
    cells m !! 2%positive = None ∧
    reachable_nodes this m = Undefined ∧
    insert this 2 m = Undefined ∧
    run_ops BinarySearchTree_default
      [OpInsert 5; OpInsert 3; OpRemove 3; OpInsert 2] initial_memory = Undefined.
Proof. eexists _, _. split; [reflexivity|done]. Qed.

(** ** Further properties of the operations *)

Lemma BST_sorted t : BST t ↔ StronglySorted Z.lt (values t).
Proof.
  induction t as [|l IHl v r IHr]; simpl.
  { split; [constructor|done]. }
  rewrite StronglySorted_app, StronglySorted_cons, IHl, IHr, !Forall_forall.
  split.
  - intros (Hl & Hr & Sl & Sr). split; [|done].
    intros x1 x2 H1 [->|H2]%elem_of_cons; [by apply Hl|].
    specialize (Hl _ H1). specialize (Hr _ H2). lia.
  - intros (Hlr & Sl & Hr & Sr). split; [|done].
    intros x Hx. apply Hlr; [done|by left].
Qed.

Lemma BST_NoDup t : BST t → NoDup (values t).
Proof.
  rewrite BST_sorted. induction 1 as [|x l Hs IH Hx]; constructor; [|done].
  intros Hin. rewrite Forall_forall in Hx. apply Hx in Hin. lia.
Qed.

Lemma tinsert_list_BST vs : ∀ t, BST t → BST (tinsert_list vs t).
Proof.
  induction vs as [|v vs IH]; intros t Ht; [done|].
  simpl. apply IH. by apply tinsert_BST.
Qed.

Lemma tinsert_list_values vs t w :
  BST t → w ∈ values (tinsert_list vs t) ↔ w ∈ vs ∨ w ∈ values t.
Proof.
  intros Ht. pose proof (tinsert_list_BST vs t Ht) as Ht'.
  pose proof (tcontains_tinsert_list w vs t) as Hc.
  rewrite !tcontains_decide in Hc by done.
  destruct (decide (w ∈ values (tinsert_list vs t))) as [Hin|Hnin].
  - rewrite bool_decide_eq_true_2 in Hc by done. symmetry in Hc.
    apply orb_true_iff in Hc as [H|H]; apply bool_decide_eq_true_1 in H; tauto.
  - rewrite (bool_decide_eq_false_2 _ Hnin) in Hc. symmetry in Hc.
    apply orb_false_iff in Hc as [H1 H2].
    apply bool_decide_eq_false_1 in H1, H2. tauto.
Qed.

Lemma tinsert_list_nodes vs :
  nodes (tinsert_list vs Leaf) = length (remove_dups vs).
Proof.
  rewrite <- values_length. apply Permutation_length, NoDup_Permutation.
  - apply BST_NoDup, tinsert_list_BST. done.
  - apply NoDup_remove_dups.
  - intros w. rewrite tinsert_list_values, elem_of_remove_dups by done.
    simpl. rewrite elem_of_nil. tauto.
Qed.

Lemma prefix_comp_owns s1 : ∀ s2 fuel m,
  owns (cells m) s1 → owns (cells m) s2 →
  (height (erase s1) < fuel)%nat →
  prefix_comp fuel (lroot s1) (lroot s2) m
  = Ok (bool_decide (erase s1 = erase s2), m).
Proof.
  induction s1 as [|a1 l1 IHl x1 r1 IHr]; intros [|a2 l2 x2 r2] [|fuel] m Ho1 Ho2 Hf;
    simpl in *; try lia; try done.
  destruct Ho1 as (Ha1 & Hl1 & Hr1). destruct Ho2 as (Ha2 & Hl2 & Hr2).
  unfold bind at 1. rewrite (deref_live _ _ _ Ha1).
  unfold bind at 1. rewrite (deref_live _ _ _ Ha2). simpl.
  destruct (x1 =? x2) eqn:Hx; simpl.
  - apply Z.eqb_eq in Hx as ->. unfold bind.
    rewrite (IHl l2) by (done || lia).
    case_bool_decide as Hl.
    + rewrite (IHr r2) by (done || lia). unfold ret. do 2 f_equal.
      apply bool_decide_ext. split; [by intros ->; rewrite Hl|congruence].
    + unfold ret. do 2 f_equal. symmetry. apply bool_decide_eq_false_2. congruence.
  - unfold ret. do 2 f_equal. symmetry. apply bool_decide_eq_false_2.
    intros [= _ -> _]. lia.
Qed.

Lemma tinsert_results_lookup vs : ∀ t pre,
  (∀ w, tcontains w t = bool_decide (w ∈ pre)) →
  ∀ i v, vs !! i = Some v →
    tinsert_results vs t !! i = Some (bool_decide (v ∉ pre ++ take i vs)).
Proof.
  induction vs as [|x vs IH]; intros t pre Hpre [|i] v Hv; simplify_eq/=.
  - rewrite Hpre, app_nil_r. f_equal.
    destruct (decide (v ∈ pre)).
    + rewrite bool_decide_eq_true_2, bool_decide_eq_false_2 by tauto. done.
    + rewrite bool_decide_eq_false_2, bool_decide_eq_true_2 by tauto. done.
  - rewrite (IH (tinsert x t) (pre ++ [x])) with (v := v); [by rewrite <- app_assoc| |done].
    intros w. rewrite tcontains_tinsert, Hpre.
    apply eq_true_iff_eq.
    rewrite orb_true_iff, !bool_decide_eq_true, elem_of_app, list_elem_of_singleton.
    tauto.
Qed.

(** X1.  On a well-formed search tree, [contains] answers true exactly for
    the values stored in the tree, and does not touch the store. *)
Theorem contains_iff_member m this t value :
  represents m this t → BST t →
  contains this value m = Ok (bool_decide (value ∈ values t), m).
Proof.
  intros (s & Ht & <-) Hbst.
  by rewrite (contains_tree_at _ _ _ _ Ht), tcontains_decide.
Qed.

Lemma contains_iff_member_witness :
  contains example_object 3 example_memory
  = Ok (bool_decide (3 ∈ values example_tree), example_memory).
Proof.
  apply (contains_iff_member example_memory example_object example_tree 3).
  - example_represents.
  - apply tvalid_BST. reflexivity.
Defined.

(** X2.  For an element type whose conversion to a bound gives back the
    value itself (every [x] converts to a pointer through which [x] is
    read): on a well-formed tree, whatever its values, [isValid] returns true
    exactly when the ordering invariant holds at every node, and it leaves
    the store as it is. *)
Theorem isValid_iff_ordered as_bound m this t :
  (∀ x, as_bound x = Some x) →
  represents m this t →
  ∃ b, isValid as_bound this m = Ok (b, m) ∧ (b = true ↔ BST t).
Proof.
  intros Hconv (s & Ht & <-). exists (tvalid None None (erase s)).
  split; [|apply tvalid_BST].
  rewrite <- (isValid_tree_at _ _ _ Ht). unfold isValid, bind.
  destruct (get_budget m) as [[fuel m0]| |]; [|done..].
  apply isValid_helper_ext. intros x. by rewrite Hconv.
Qed.

Lemma isValid_iff_ordered_witness :
  (∀ x, address_of x = Some x) ∧
  represents unordered_memory example_object unordered_tree ∧
  ∃ b, isValid address_of example_object unordered_memory = Ok (b, unordered_memory) ∧
       (b = true ↔ BST unordered_tree).
Proof.
  assert (∀ x, address_of x = Some x) as Hconv by reflexivity.
  assert (represents unordered_memory example_object unordered_tree) as Hrep
    by layout_represents unordered_layout.
  split; [exact Hconv|]. split; [exact Hrep|].
  exact (isValid_iff_ordered address_of unordered_memory example_object
           unordered_tree Hconv Hrep).
Defined.

(** X3.  [operator==] on two well-formed trees in one store returns true
    exactly when they have the same shape and the same values node for node;
    [operator!=] is its negation. *)
Theorem equal_iff_same_tree m this other t1 t2 :
  represents m this t1 → represents m other t2 →
  equal this other m = Ok (bool_decide (t1 = t2), m) ∧
  not_equal this other m = Ok (negb (bool_decide (t1 = t2)), m).
Proof.
  intros (s1 & Ht1 & <-) (s2 & Ht2 & <-).
  assert (equal this other m = Ok (bool_decide (erase s1 = erase s2), m)) as Heq.
  { destruct Ht1 as (Hr1 & Ho1 & Hnd1 & _). destruct Ht2 as (Hr2 & Ho2 & _).
    unfold equal, bind, get_budget. rewrite Hr1, Hr2.
    apply prefix_comp_owns; try done. by apply owns_budget. }
  split; [done|]. unfold not_equal, bind. by rewrite Heq.
Qed.

Lemma equal_iff_same_tree_witness :
  equal pair_first pair_second pair_memory
  = Ok (bool_decide (erase pair_first_layout = erase pair_second_layout), pair_memory) ∧
  not_equal pair_first pair_second pair_memory
  = Ok (negb (bool_decide (erase pair_first_layout = erase pair_second_layout)), pair_memory).
Proof.
  apply (equal_iff_same_tree pair_memory pair_first pair_second).
  - layout_represents pair_first_layout.
  - layout_represents pair_second_layout.
Defined.

(** X4.  [insert] keeps a valid tree valid (the object holds a well-formed
    tree that satisfies the ordering invariant) and its counter exact, and
    does not change the answer of [contains] for any other value. *)
Theorem insert_keeps_others m this t value :
  represents m this t → BST t → size this < SIZE_MAX →
  ∃ b this' m',
    insert this value m = Ok ((b, this'), m') ∧
    represents m' this' (tinsert value t) ∧ BST (tinsert value t) ∧
    reachable_nodes this' m' = Ok (size this', m') ∧
    ∀ w, w ≠ value →
      contains this' w m' = Ok (bool_decide (w ∈ values t), m') ∧
      contains this w m = Ok (bool_decide (w ∈ values t), m).
Proof.
  intros (s & Ht & <-) Hbst Hroom.
  destruct (insert_tree_at m this s value Ht) as (this' & m' & Hrun & Ht' & _).
  { by intros _. }
  eexists _, this', m'. split; [exact Hrun|]. split; [|split; [|split]].
  - eexists. split; [exact Ht'|apply erase_linsert].
  - by apply tinsert_BST.
  - by eapply reachable_nodes_tree_at.
  - intros w Hw.
    rewrite (contains_tree_at _ _ _ _ Ht'), (contains_tree_at _ _ _ _ Ht).
    rewrite erase_linsert, tcontains_tinsert, bool_decide_eq_false_2 by done.
    by rewrite tcontains_decide.
Qed.

Lemma insert_keeps_others_witness :
  ∃ b this' m',
    insert example_object 4 example_memory = Ok ((b, this'), m') ∧
    represents m' this' (tinsert 4 example_tree) ∧ BST (tinsert 4 example_tree) ∧
    reachable_nodes this' m' = Ok (size this', m') ∧
    ∀ w, w ≠ 4 →
      contains this' w m' = Ok (bool_decide (w ∈ values example_tree), m') ∧
      contains example_object w example_memory
      = Ok (bool_decide (w ∈ values example_tree), example_memory).
Proof.
  apply (insert_keeps_others example_memory example_object example_tree 4).
  - example_represents.
  - apply tvalid_BST. reflexivity.
  - unfold SIZE_MAX. simpl. lia.
Defined.

(** X5.  Inserting any list of values, repeats included, into an empty tree:
    each insert returns true exactly when its value has not been inserted
    before, the object holds a well-formed tree that satisfies the ordering
    invariant, [size] is the number of distinct values, and [contains] is
    membership in the list, whatever the order. *)
Theorem insert_any_list m vs :
  Z.of_nat (length vs) ≤ SIZE_MAX →
  ∃ rs this m',
    insert_all BinarySearchTree_default vs m = Ok ((rs, this), m') ∧
    (∀ i v, vs !! i = Some v → rs !! i = Some (bool_decide (v ∉ take i vs))) ∧
    represents m' this (tinsert_list vs Leaf) ∧ BST (tinsert_list vs Leaf) ∧
    size this = Z.of_nat (length (remove_dups vs)) ∧
    ∀ w, contains this w m' = Ok (bool_decide (w ∈ vs), m').
Proof.
  intros Hroom.
  destruct (insert_all_tree_at vs m _ _ (tree_at_default m))
    as (this & m' & s & Hrun & Ht & He & _); [simpl; lia|].
  simpl in Hrun, He.
  exists (tinsert_results vs Leaf), this, m'. split; [done|].
  split; [|split; [|split; [|split]]].
  - intros i v Hv. apply (tinsert_results_lookup vs Leaf []); [|done].
    intros w. symmetry. apply bool_decide_eq_false_2, not_elem_of_nil.
  - by exists s.
  - by apply tinsert_list_BST.
  - destruct Ht as (_ & _ & _ & _ & Hsz & _). unfold size.
    by rewrite Hsz, He, tinsert_list_nodes.
  - intros w. rewrite (contains_tree_at _ _ _ _ Ht), He, tcontains_tinsert_list.
    simpl. by rewrite orb_false_r.
Qed.

Lemma insert_any_list_witness :
  ∃ rs this m',
    insert_all BinarySearchTree_default [5; 3; 5; 8; 3] initial_memory
      = Ok ((rs, this), m') ∧
    (∀ i v, [5; 3; 5; 8; 3] !! i = Some v →
       rs !! i = Some (bool_decide (v ∉ take i [5; 3; 5; 8; 3]))) ∧
    represents m' this (tinsert_list [5; 3; 5; 8; 3] Leaf) ∧
    BST (tinsert_list [5; 3; 5; 8; 3] Leaf) ∧
    size this = Z.of_nat (length (remove_dups [5; 3; 5; 8; 3])) ∧
    ∀ w, contains this w m' = Ok (bool_decide (w ∈ [5; 3; 5; 8; 3]), m').
Proof.
  apply (insert_any_list initial_memory [5; 3; 5; 8; 3]).
  unfold SIZE_MAX. simpl. lia.
Defined.

(** ** Teardown and the independence of copies *)

Lemma postfix_del_owns s : ∀ fuel m,
  owns (cells m) s → NoDup (addrs s) → (height (erase s) < fuel)%nat →
  ∃ c', postfix_del fuel (lroot s) m = Ok (tt, mkMemory c' (brk m)) ∧
        (∀ a, c' !! a = if decide (a ∈ addrs s) then None else cells m !! a) ∧
        (base.size c' + nodes (erase s) = base.size (cells m))%nat.
Proof.
  induction s as [|a l IHl x r IHr]; intros [|fuel] m Ho Hnd Hf; simpl in Hf; try lia.
  { exists (cells m). split; [by destruct m|]. split; [|simpl; lia]. intros a.
    destruct (decide (a ∈ addrs LNil)) as [Hin|]; [|done]. by apply elem_of_nil in Hin. }
  destruct Ho as (Ha & Hl & Hr).
  simpl in Hnd. apply NoDup_cons in Hnd as [Hal (Hndl & Hlr & Hndr)%NoDup_app].
  apply not_elem_of_app in Hal as [Hal Har].
  destruct (IHl fuel m Hl Hndl) as (c1 & Hrun1 & Hc1 & Hs1); [lia|].
  assert (c1 !! a = Some (mkNode x (lroot r) (lroot l))) as Ha1.
  { rewrite Hc1. by destruct (decide (a ∈ addrs l)). }
  assert (owns c1 r) as Hr1.
  { apply (owns_frame (cells m)); [|done]. intros a' Hin. rewrite Hc1.
    destruct (decide (a' ∈ addrs l)) as [Hin'|]; [|done]. by apply Hlr in Hin'. }
  destruct (IHr fuel (mkMemory c1 (brk m)) Hr1 Hndr) as (c2 & Hrun2 & Hc2 & Hs2); [lia|].
  simpl in Hc2, Hs2.
  assert (c2 !! a = Some (mkNode x (lroot r) (lroot l))) as Ha2.
  { rewrite Hc2. by destruct (decide (a ∈ addrs r)). }
  exists (base.delete a c2). split; [|split].
  - cbn [postfix_del lroot]. unfold bind at 1. rewrite (deref_live _ _ _ Ha). cbn [left].
    unfold bind at 1. rewrite Hrun1.
    unfold bind at 1. rewrite (deref_live (mkMemory c1 (brk m)) _ _ Ha1). cbn [right].
    unfold bind at 1. rewrite Hrun2. unfold delete. cbn [cells brk]. by rewrite Ha2.
  - intros a'. simpl. destruct (decide (a' = a)) as [->|Hne].
    + rewrite lookup_delete_eq. rewrite decide_True; [done|by left].
    + rewrite lookup_delete_ne, Hc2, Hc1 by done.
      destruct (decide (a' ∈ addrs r)), (decide (a' ∈ addrs l)).
      all: destruct (decide (a' ∈ a :: addrs l ++ addrs r)) as [Hin|Hnin]; try done.
      all: exfalso; rewrite elem_of_cons, elem_of_app in *; tauto.
  - rewrite map_size_delete_Some by done.
    pose proof (map_size_ne_0_lookup_2 c2 a (mk_is_Some _ _ Ha2)).
    simpl. lia.
Qed.

Lemma destroy_tree_at m this s :
  tree_at m this s →
  ∃ m', destroy this m = Ok (tt, m') ∧ brk m' = brk m ∧
        (∀ a, cells m' !! a = if decide (a ∈ addrs s) then None else cells m !! a) ∧
        (base.size (cells m') + nodes (erase s) = base.size (cells m))%nat.
Proof.
  intros (Hroot & Ho & Hnd & _).
  destruct (postfix_del_owns s (budget m) m Ho Hnd) as (c' & Hrun & Hc).
  { by apply owns_budget. }
  exists (mkMemory c' (brk m)). split; [|done].
  unfold destroy, bind, get_budget. by rewrite Hroot.
Qed.

(** X6.  The destructor of a well-formed tree releases every node of the
    tree exactly once and writes nothing else: afterwards the cells of the
    tree are gone and every other cell is as before.  On an empty tree it does
    nothing. *)
Theorem destroy_releases_tree m this t :
  represents m this t →
  ∃ m', destroy this m = Ok (tt, m') ∧
        brk m' = brk m ∧
        cells m' ⊆ cells m ∧
        (base.size (cells m') + nodes t = base.size (cells m))%nat ∧
        (t = Leaf → m' = m) ∧
        (t ≠ Leaf → deref (m_root this) m' = Undefined).
Proof.
  intros (s & Ht & <-).
  destruct (destroy_tree_at m this s Ht) as (m' & Hrun & Hbrk & Hc & Hsz).
  destruct Ht as (Hroot & Ho & Hnd & _).
  exists m'. split; [done|]. split; [done|]. split; [|split; [done|split]].
  - apply map_subseteq_spec. intros a n. rewrite Hc.
    by destruct (decide (a ∈ addrs s)).
  - intros He. destruct s; [|done]. destruct m, m'. simpl in *. subst. f_equal.
    apply map_eq. intros a. rewrite Hc. destruct (decide (a ∈ [])) as [Hin|]; [|done].
    by apply elem_of_nil in Hin.
  - intros Hne. destruct s as [|a l x r]; [done|]. rewrite Hroot. simpl.
    unfold deref. rewrite Hc. rewrite decide_True; [done|by left].
Qed.

Lemma destroy_releases_tree_witness :
  ∃ m', destroy example_object example_memory = Ok (tt, m') ∧
        brk m' = brk example_memory ∧
        cells m' ⊆ cells example_memory ∧
        (base.size (cells m') + nodes example_tree = base.size (cells example_memory))%nat ∧
        (example_tree = Leaf → m' = example_memory) ∧
        (example_tree ≠ Leaf → deref (m_root example_object) m' = Undefined).
Proof.
  apply (destroy_releases_tree example_memory example_object example_tree).
  example_represents.
Defined.

Lemma tree_at_frame m m1 this s :
  tree_at m this s →
  (∀ a, a ∈ addrs s → cells m1 !! a = cells m !! a) →
  (brk m ≤ brk m1)%positive →
  tree_at m1 this s.
Proof.
  intros (Hroot & Ho & Hnd & Hlt & Hsz & Hmax) Hsame Hbrk.
  split; [done|]. split; [by apply (owns_frame (cells m))|]. split; [done|].
  split; [|done]. eapply Forall_impl; [exact Hlt|]. simpl. lia.
Qed.

(** X7.  A copy shares nothing with its original.  After the copy
    constructor, inserting into the copy leaves the original as it was,
    inserting into the original leaves the copy as it was, and the two can be
    destroyed one after the other: no node is released twice. *)
Theorem copy_is_independent m other t value :
  represents m other t → BST t → size other < SIZE_MAX →
  ∃ this m',
    BinarySearchTree_copy other m = Ok (this, m') ∧
    (∃ b this1 m1,
       insert this value m' = Ok ((b, this1), m1) ∧ represents m1 other t) ∧
    (∃ b other1 m1,
       insert other value m' = Ok ((b, other1), m1) ∧ represents m1 this t) ∧
    (∃ m1 m2,
       destroy this m' = Ok (tt, m1) ∧ represents m1 other t ∧
       destroy other m1 = Ok (tt, m2)).
Proof.
  intros (so & Ht & <-) Hbst Hroom.
  destruct (copy_tree_at_fresh m other so Ht Hbst)
    as (this & m' & st & Hcopy & _ & Ht' & He & Hto & Hdisj & _).
  assert (size this < SIZE_MAX) as Hroom'.
  { destruct Ht as (_ & _ & _ & _ & Hsz & _). destruct Ht' as (_ & _ & _ & _ & Hsz' & _).
    unfold size in *. rewrite Hsz', He, <- Hsz. done. }
  exists this, m'. split; [done|]. split; [|split].
  - destruct (insert_grows m' this st value Ht') as (this1 & m1 & Hrun & _ & Hg).
    { by intros _. }
    eexists _, this1, m1. split; [exact Hrun|]. exists so. split; [|done].
    destruct Hg as (Hbrk & _ & Hfr). apply (tree_at_frame m'); [done| |done].
    intros a Hin. apply Hfr; [by apply Hdisj|].
    destruct Hto as (_ & _ & _ & Hlt & _). rewrite Forall_forall in Hlt. by apply Hlt.
  - destruct (insert_grows m' other so value Hto) as (other1 & m1 & Hrun & _ & Hg).
    { by intros _. }
    eexists _, other1, m1. split; [exact Hrun|]. exists st. split; [|done].
    destruct Hg as (Hbrk & _ & Hfr). apply (tree_at_frame m'); [done| |done].
    intros a Hin. apply Hfr; [intros Hin'; by apply (Hdisj a)|].
    destruct Ht' as (_ & _ & _ & Hlt & _). rewrite Forall_forall in Hlt. by apply Hlt.
  - destruct (destroy_tree_at m' this st Ht') as (m1 & Hrun & Hbrk & Hc & _).
    assert (tree_at m1 other so) as Hto1.
    { apply (tree_at_frame m'); [done| |lia]. intros a Hin. rewrite Hc.
      rewrite decide_False; [done|by apply Hdisj]. }
    destruct (destroy_tree_at m1 other so Hto1) as (m2 & Hrun2 & _).
    exists m1, m2. split; [done|]. split; [by exists so|done].
Qed.

Lemma copy_is_independent_witness :
  ∃ this m',
    BinarySearchTree_copy example_object example_memory = Ok (this, m') ∧
    (∃ b this1 m1,
       insert this 4 m' = Ok ((b, this1), m1) ∧
       represents m1 example_object example_tree) ∧
    (∃ b other1 m1,
       insert example_object 4 m' = Ok ((b, other1), m1) ∧
       represents m1 this example_tree) ∧
    (∃ m1 m2,
       destroy this m' = Ok (tt, m1) ∧ represents m1 example_object example_tree ∧
       destroy example_object m1 = Ok (tt, m2)).
Proof.
  apply (copy_is_independent example_memory example_object example_tree 4).
  - example_represents.
  - apply tvalid_BST. reflexivity.
  - unfold SIZE_MAX. simpl. lia.
Defined.

(** ** Bulk construction *)

Lemma midpoint_bounds lower upper :
  0 ≤ lower → lower < upper → upper < 2 ^ 63 →
  ((lower + upper) mod 2 ^ 64) / 2 = (lower + upper) / 2 ∧
  lower ≤ (lower + upper) / 2 < upper ∧
  ((lower + upper) / 2 + 1) mod 2 ^ 64 = (lower + upper) / 2 + 1.
Proof.
  intros H0 Hlt Hup.
  assert (lower + upper < 2 ^ 64) by lia.
  rewrite (Z.mod_small (lower + upper)) by lia.
  assert (lower ≤ (lower + upper) / 2 < upper) as Hmid.
  { split; [apply Z.div_le_lower_bound; lia|apply Z.div_lt_upper_bound; lia]. }
  split; [done|]. split; [done|]. apply Z.mod_small. lia.
Qed.

Lemma preorder_bisection_tree fuel : ∀ arr lower upper,
  preorder (bisection_tree fuel arr lower upper) = bisection_order fuel arr lower upper.
Proof.
  induction fuel as [|fuel IH]; intros arr lower upper; simpl; [done|].
  destruct (lower >=? upper); [done|].
  destruct (arr !! _); [|done]. simpl. by rewrite !IH.
Qed.

Lemma slice_split arr lower mid upper x :
  0 ≤ lower → lower ≤ mid → mid < upper →
  arr !! Z.to_nat mid = Some x →
  slice arr lower upper = slice arr lower mid ++ x :: slice arr (mid + 1) upper.
Proof.
  intros H0 H1 H2 Hx. unfold slice.
  assert (drop (Z.to_nat lower) arr
          = take (Z.to_nat (mid - lower)) (drop (Z.to_nat lower) arr)
            ++ x :: drop (Z.to_nat (mid + 1)) arr) as Hd.
  { rewrite <- (take_drop (Z.to_nat (mid - lower)) (drop (Z.to_nat lower) arr)) at 1.
    f_equal. rewrite drop_drop.
    replace (Z.to_nat lower + Z.to_nat (mid - lower))%nat with (Z.to_nat mid) by lia.
    replace (Z.to_nat (mid + 1)) with (S (Z.to_nat mid)) by lia.
    by apply drop_S. }
  rewrite Hd at 1.
  assert (length (take (Z.to_nat (mid - lower)) (drop (Z.to_nat lower) arr))
          = Z.to_nat (mid - lower)) as Hlen.
  { apply length_take_le. rewrite length_drop.
    apply lookup_lt_Some in Hx. lia. }
  rewrite take_app_ge by lia. f_equal. rewrite Hlen.
  replace (Z.to_nat (upper - lower) - Z.to_nat (mid - lower))%nat
    with (S (Z.to_nat (upper - (mid + 1)))) by lia.
  done.
Qed.

Lemma values_bisection_tree fuel : ∀ arr lower upper,
  0 ≤ lower → lower ≤ upper → upper ≤ Z.of_nat (length arr) →
  Z.of_nat (length arr) < 2 ^ 63 →
  (Z.to_nat (upper - lower) < fuel)%nat →
  values (bisection_tree fuel arr lower upper) = slice arr lower upper.
Proof.
  induction fuel as [|fuel IH]; intros arr lower upper H0 Hle Hup Hlen Hf; [lia|].
  simpl. destruct (lower >=? upper) eqn:Hge.
  { unfold slice. replace (Z.to_nat (upper - lower)) with O by lia. done. }
  destruct (midpoint_bounds lower upper) as (-> & Hmid & ->); try lia.
  destruct (lookup_lt_is_Some_2 arr (Z.to_nat ((lower + upper) / 2))) as [x Hx]; [lia|].
  rewrite Hx. simpl. rewrite !IH by lia.
  symmetry. apply slice_split; (done || lia).
Qed.

Lemma bisection_tree_balanced fuel : ∀ arr lower upper,
  0 ≤ lower → lower ≤ upper → upper ≤ Z.of_nat (length arr) →
  Z.of_nat (length arr) < 2 ^ 63 →
  (Z.to_nat (upper - lower) < fuel)%nat →
  nodes (bisection_tree fuel arr lower upper) = Z.to_nat (upper - lower) ∧
  (lower < upper →
   (2 ^ height (bisection_tree fuel arr lower upper) ≤ 2 * Z.to_nat (upper - lower))%nat).
Proof.
  induction fuel as [|fuel IH]; intros arr lower upper H0 Hle Hup Hlen Hf; [lia|].
  simpl. destruct (lower >=? upper) eqn:Hge; [simpl; split; lia|].
  destruct (midpoint_bounds lower upper) as (-> & Hmid & ->); try lia.
  destruct (lookup_lt_is_Some_2 arr (Z.to_nat ((lower + upper) / 2))) as [x Hx]; [lia|].
  rewrite Hx. simpl.
  set (mid := (lower + upper) / 2) in *.
  destruct (IH arr lower mid) as [Hnl Hhl]; try lia.
  destruct (IH arr (mid + 1) upper) as [Hnr Hhr]; try lia.
  split; [lia|]. intros _.
  assert (upper - (mid + 1) ≤ mid - lower ∧ mid - lower ≤ upper - mid) as [Hbal Hbal'].
  { subst mid. pose proof (Z.div_mod (lower + upper) 2).
    pose proof (Z.mod_pos_bound (lower + upper) 2). lia. }
  set (hl := height (bisection_tree fuel arr lower mid)) in *.
  set (hr := height (bisection_tree fuel arr (mid + 1) upper)) in *.
  assert (2 ^ (hl `max` hr) ≤ Z.to_nat (upper - lower))%nat; [|lia].
  destruct (decide (lower < mid)) as [Hl|Hl].
  - specialize (Hhl Hl).
    assert (2 ^ hr ≤ 2 * Z.to_nat (mid - lower))%nat.
    { destruct (decide (mid + 1 < upper)) as [Hr|Hr]; [specialize (Hhr Hr); lia|].
      assert (hr = O) as ->; [|simpl; lia].
      subst hr. destruct (bisection_tree fuel arr (mid + 1) upper); simpl in *; lia. }
    destruct (Nat.max_spec hl hr) as [[_ ->]|[_ ->]]; lia.
  - assert (hl = O) as ->.
    { subst hl. destruct (bisection_tree fuel arr lower mid); simpl in *; lia. }
    assert (hr = O) as ->.
    { subst hr. destruct (bisection_tree fuel arr (mid + 1) upper); simpl in *; lia. }
    simpl. lia.
Qed.

Lemma bisection_insert_order fuel : ∀ this arr lower upper m,
  0 ≤ lower → lower ≤ upper → upper ≤ Z.of_nat (length arr) →
  Z.of_nat (length arr) < 2 ^ 63 →
  (Z.to_nat (upper - lower) < fuel)%nat →
  bisection_insert fuel this arr lower upper m =
  (let* r := insert_all this (bisection_order fuel arr lower upper) in ret (snd r)) m.
Proof.
  induction fuel as [|fuel IH]; intros this arr lower upper m H0 Hle Hup Hlen Hf; [lia|].
  cbn [bisection_insert bisection_order].
  destruct (lower >=? upper) eqn:Hge; [done|].
  destruct (midpoint_bounds lower upper) as (-> & Hmid & ->); try lia.
  destruct (lookup_lt_is_Some_2 arr (Z.to_nat ((lower + upper) / 2))) as [x Hx]; [lia|].
  rewrite Hx. set (mid := (lower + upper) / 2) in *.
  cbn [insert_all]. unfold bind.
  destruct (insert this x m) as [[r m1]| |]; [|done|done].
  rewrite insert_all_app. unfold bind.
  specialize (IH (snd r) arr lower mid m1) as IHl. unfold bind in IHl.
  rewrite IHl by lia.
  destruct (insert_all (snd r) (bisection_order fuel arr lower mid) m1)
    as [[r1 m2]| |]; [|done|done].
  unfold ret at 1. specialize (IH (snd r1) arr (mid + 1) upper m2) as IHr.
  unfold bind in IHr. rewrite IHr by lia. cbn [snd].
  by destruct (insert_all (snd r1) (bisection_order fuel arr (mid + 1) upper) m2)
    as [[r2 m3]| |].
Qed.

Lemma slice_all arr : slice arr 0 (Z.of_nat (length arr)) = arr.
Proof.
  unfold slice. rewrite Z.sub_0_r, Nat2Z.id. simpl. apply firstn_all.
Qed.

Lemma sorted_distinct l :
  StronglySorted Z.le l → NoDup l → StronglySorted Z.lt l.
Proof.
  induction 1 as [|x l Hs IH Hx]; intros Hnd; [constructor|].
  apply NoDup_cons in Hnd as [Hnin Hnd]. constructor; [by apply IH|].
  rewrite Forall_forall in *. intros y Hy.
  specialize (Hx y Hy). assert (x ≠ y) by (by intros ->). lia.
Qed.

(** What [BinarySearchTree_bulk] builds, whatever the input. *)
Lemma bulk_tree_at m arr :
  Z.of_nat (length arr) < 2 ^ 63 →
  ∃ this m' s,
    BinarySearchTree_bulk arr m = Ok (this, m') ∧
    tree_at m' this s ∧
    erase s = tinsert_list
                (preorder (bisection_tree (S (length arr)) (merge_sort Z.le arr)
                                          0 (Z.of_nat (length arr)))) Leaf.
Proof.
  intros Hlen.
  assert (length (merge_sort Z.le arr) = length arr) as Hl.
  { apply Permutation_length, merge_sort_Permutation. }
  set (order := bisection_order (S (length arr)) (merge_sort Z.le arr)
                                0 (Z.of_nat (length arr))).
  assert (length order = length arr) as Hlo.
  { subst order. rewrite <- preorder_bisection_tree, preorder_length.
    destruct (bisection_tree_balanced (S (length arr)) (merge_sort Z.le arr)
                0 (Z.of_nat (length arr))) as [-> _]; lia. }
  destruct (insert_all_tree_at order m _ _ (tree_at_default m))
    as (this & m' & s & Hrun & Ht & He & _).
  { unfold SIZE_MAX. simpl. lia. }
  exists this, m', s. split; [|split; [done|]].
  - unfold BinarySearchTree_bulk.
    change (mkBST None 0) with BinarySearchTree_default.
    rewrite bisection_insert_order by lia. fold order. unfold bind. by rewrite Hrun.
  - by rewrite preorder_bisection_tree.
Qed.

(** X8.  Bulk construction from any array, repeats included (its length
    must leave room for the midpoint sum [lower + upper]): the tree is
    well-formed and ordered, it holds exactly the values of the array, and its
    size is the number of distinct values, because [insert] turns the repeats
    down. *)
Theorem bulk_any_array m arr :
  Z.of_nat (length arr) < 2 ^ 63 →
  ∃ this m' t,
    BinarySearchTree_bulk arr m = Ok (this, m') ∧
    represents m' this t ∧ BST t ∧
    size this = Z.of_nat (length (remove_dups arr)) ∧
    ∀ w, contains this w m' = Ok (bool_decide (w ∈ arr), m').
Proof.
  intros Hlen.
  destruct (bulk_tree_at m arr Hlen) as (this & m' & s & Hrun & Ht & He).
  set (sorted := merge_sort Z.le arr) in *.
  set (T := bisection_tree (S (length arr)) sorted 0 (Z.of_nat (length arr))) in *.
  assert (length sorted = length arr) as Hl.
  { apply Permutation_length, merge_sort_Permutation. }
  assert (preorder T ≡ₚ arr) as Hperm.
  { rewrite preorder_values. subst T. rewrite <- Hl.
    rewrite values_bisection_tree, slice_all by lia. apply merge_sort_Permutation. }
  assert (BST (erase s)) as Hbst by (rewrite He; by apply tinsert_list_BST).
  exists this, m', (erase s). split; [done|]. split; [by exists s|]. split; [done|].
  split.
  - destruct Ht as (_ & _ & _ & _ & Hsz & _). unfold size.
    rewrite Hsz, He, tinsert_list_nodes. f_equal.
    apply Permutation_length, NoDup_Permutation; try apply NoDup_remove_dups.
    intros w. by rewrite !elem_of_remove_dups, Hperm.
  - intros w. rewrite (contains_tree_at _ _ _ _ Ht), He, tcontains_tinsert_list.
    simpl. rewrite orb_false_r. do 2 f_equal. apply bool_decide_ext. by rewrite Hperm.
Qed.

Lemma bulk_any_array_witness :
  ∃ this m' t,
    BinarySearchTree_bulk [4; 1; 4; 9; 1] initial_memory = Ok (this, m') ∧
    represents m' this t ∧ BST t ∧
    size this = Z.of_nat (length (remove_dups [4; 1; 4; 9; 1])) ∧
    ∀ w, contains this w m' = Ok (bool_decide (w ∈ [4; 1; 4; 9; 1]), m').
Proof.
  apply (bulk_any_array initial_memory [4; 1; 4; 9; 1]). simpl. lia.
Defined.

(** X9.  Bulk construction from an array of distinct values: the in-order
    listing of the tree is the sorted array, the size is the length of the
    array, the root is the element at index [length / 2] of the sorted array,
    and no tree with as many nodes is lower. *)
Theorem bulk_distinct_balanced m arr :
  NoDup arr → Z.of_nat (length arr) < 2 ^ 63 →
  ∃ this m' t,
    BinarySearchTree_bulk arr m = Ok (this, m') ∧
    represents m' this t ∧ BST t ∧
    values t = merge_sort Z.le arr ∧
    size this = Z.of_nat (length arr) ∧
    (∀ l v r, t = Br l v r → merge_sort Z.le arr !! (length arr / 2)%nat = Some v) ∧
    (∀ t', nodes t' = nodes t → (height t ≤ height t')%nat).
Proof.
  intros Hnd Hlen.
  destruct (bulk_tree_at m arr Hlen) as (this & m' & s & Hrun & Ht & He).
  set (sorted := merge_sort Z.le arr) in *.
  set (T := bisection_tree (S (length arr)) sorted 0 (Z.of_nat (length arr))) in *.
  assert (length sorted = length arr) as Hl.
  { apply Permutation_length, merge_sort_Permutation. }
  assert (values T = sorted) as Hv.
  { subst T. rewrite <- Hl. by rewrite values_bisection_tree, slice_all by lia. }
  assert (BST T) as Hbst.
  { apply BST_sorted. rewrite Hv. apply sorted_distinct.
    - apply StronglySorted_merge_sort; apply _.
    - subst sorted. by rewrite merge_sort_Permutation. }
  rewrite tinsert_list_preorder in He by done.
  destruct (bisection_tree_balanced (S (length arr)) sorted 0 (Z.of_nat (length arr)))
    as [Hn Hh]; try lia.
  fold T in Hn, Hh. rewrite Z.sub_0_r, Nat2Z.id in Hn, Hh.
  exists this, m', T. split; [done|]. split; [by exists s|]. split; [done|].
  split; [done|]. split; [|split].
  - destruct Ht as (_ & _ & _ & _ & Hsz & _). unfold size. by rewrite Hsz, He, Hn.
  - intros l v r HT. subst T. cbn [bisection_tree] in HT.
    destruct (0 >=? Z.of_nat (length arr)) eqn:Hge; [done|].
    destruct (midpoint_bounds 0 (Z.of_nat (length arr))) as (Hm & _ & _); try lia.
    rewrite Hm in HT. rewrite Z.add_0_l in HT.
    replace (length arr / 2)%nat with (Z.to_nat (Z.of_nat (length arr) / 2)).
    + destruct (sorted !! Z.to_nat (Z.of_nat (length arr) / 2)); by simplify_eq.
    + rewrite <- (Nat2Z.id (length arr / 2)). f_equal.
      by rewrite Nat2Z.inj_div.
  - intros t' Hn'. pose proof (nodes_lt_pow_height t') as Hlt. rewrite Hn', Hn in Hlt.
    destruct (decide (0 < Z.of_nat (length arr))) as [Hpos|Hz].
    + specialize (Hh Hpos).
      assert (2 ^ height T < 2 ^ S (height t'))%nat as Hp by (simpl; lia).
      apply Nat.pow_lt_mono_r_iff in Hp; lia.
    + assert (nodes T = O) by lia. destruct T; simpl in *; lia.
Qed.

Lemma bulk_distinct_balanced_witness :
  ∃ this m' t,
    BinarySearchTree_bulk [9; 2; 7; 4; 11] initial_memory = Ok (this, m') ∧
    represents m' this t ∧ BST t ∧
    values t = merge_sort Z.le [9; 2; 7; 4; 11] ∧
    size this = Z.of_nat (length [9; 2; 7; 4; 11]) ∧
    (∀ l v r, t = Br l v r →
       merge_sort Z.le [9; 2; 7; 4; 11] !! (length [9; 2; 7; 4; 11] / 2)%nat = Some v) ∧
    (∀ t', nodes t' = nodes t → (height t ≤ height t')%nat).
Proof.
  apply (bulk_distinct_balanced initial_memory [9; 2; 7; 4; 11]).
  - by_decision.
  - simpl. lia.
Defined.

(** ** Removal *)

Lemma values_tdel_min l : ∀ x r,
  values (Br l x r) = tmin x l :: values (tdel_min (Br l x r)).
Proof.
  induction l as [|ll IH lx lr _]; intros x r; [done|].
  change (values (Br (Br ll lx lr) x r)) with (values (Br ll lx lr) ++ x :: values r).
  rewrite IH. done.
Qed.

Lemma values_tdel_max r : ∀ l x,
  values (Br l x r) = values (tdel_max (Br l x r)) ++ [tmax x r].
Proof.
  induction r as [|rl _ rx rr IH]; intros l x; [done|].
  change (values (Br l x (Br rl rx rr))) with (values l ++ x :: values (Br rl rx rr)).
  rewrite IH. simpl. by rewrite app_comm_cons, app_assoc.
Qed.

Lemma values_tremove_root l x r :
  values (tremove_root (Br l x r)) = values l ++ values r.
Proof.
  destruct r as [|rl rx rr].
  - destruct l as [|ll lx lr]; [done|].
    cbn [tremove_root values]. rewrite app_nil_r.
    pose proof (values_tdel_max lr ll lx) as H. simpl in H. by rewrite H.
  - cbn [tremove_root]. cbn [values]. f_equal.
    pose proof (values_tdel_min rl rx rr) as H. simpl in H. by rewrite H.
Qed.

Lemma filter_keeps_all {A} (P : A → Prop) `{∀ x, Decision (P x)} (l : list A) :
  Forall P l → filter P l = l.
Proof.
  induction 1 as [|x l Hx _ IH]; [done|]. by rewrite filter_cons_True, IH.
Qed.

Lemma StronglySorted_lt_filter (P : Z → Prop) `{∀ x, Decision (P x)} l :
  StronglySorted Z.lt l → StronglySorted Z.lt (filter P l).
Proof.
  induction 1 as [|x l Hs IH Hx]; [constructor|].
  assert (Forall (Z.lt x) (filter P l)).
  { rewrite Forall_forall in *. intros y [_ Hy]%list_elem_of_filter. by apply Hx. }
  destruct (decide (P x)).
  - rewrite filter_cons_True by done. by constructor.
  - by rewrite filter_cons_False.
Qed.

Lemma values_tremove value t :
  BST t → values (tremove value t) = filter (λ x, x ≠ value) (values t).
Proof.
  induction t as [|l IHl x r IHr]; [done|].
  intros (Hl & Hr & Bl & Br0). cbn [tremove].
  assert (∀ xs, Forall (λ y, y ≠ value) xs → filter (λ y, y ≠ value) xs = xs) as Hkeep.
  { intros xs. apply filter_keeps_all. }
  destruct (x >? value) eqn:H1; [|destruct (x <? value) eqn:H2].
  - cbn [values]. rewrite filter_app, IHl by done. f_equal.
    symmetry. apply Hkeep. constructor; [lia|].
    eapply Forall_impl; [exact Hr|]. simpl. lia.
  - cbn [values]. rewrite filter_app, filter_cons_True, IHr by (done || lia).
    f_equal. symmetry. apply Hkeep.
    eapply Forall_impl; [exact Hl|]. simpl. lia.
  - assert (x = value) as -> by lia.
    rewrite values_tremove_root. cbn [values].
    rewrite filter_app, filter_cons_False by tauto.
    rewrite !Hkeep; [done| |].
    + eapply Forall_impl; [exact Hr|]. simpl. lia.
    + eapply Forall_impl; [exact Hl|]. simpl. lia.
Qed.

Lemma tremove_BST value t : BST t → BST (tremove value t).
Proof.
  intros Hb. apply BST_sorted. rewrite values_tremove by done.
  apply StronglySorted_lt_filter. by apply BST_sorted.
Qed.

Lemma relinks_found value t : relinks value t = true → tcontains value t = true.
Proof.
  induction t as [|l IHl x r IHr]; simpl; [done|].
  destruct (x >? value); [done|]. by destruct (x <? value).
Qed.

Lemma tremove_nodes value t :
  relinks value t = true → S (nodes (tremove value t)) = nodes t.
Proof.
  induction t as [|l IHl x r IHr]; simpl; [done|].
  destruct (x >? value); [intros H; simpl; rewrite <- (IHl H); lia|].
  destruct (x <? value); [intros H; simpl; rewrite <- (IHr H); lia|].
  intros H. rewrite <- !values_length.
  change (match r with Leaf => _ | Br _ _ _ => _ end) with (tremove_root (Br l x r)).
  rewrite values_tremove_root, !length_app, !values_length.
  destruct r, l; simpl in *; (done || lia).
Qed.

Lemma erase_ldel_min s : erase (ldel_min s) = tdel_min (erase s).
Proof.
  induction s as [|a l IHl x r IHr]; [done|].
  destruct l; [done|]. cbn [ldel_min erase tdel_min] in *. by rewrite IHl.
Qed.

Lemma erase_ldel_max s : erase (ldel_max s) = tdel_max (erase s).
Proof.
  induction s as [|a l IHl x r IHr]; [done|].
  destruct r; [done|]. cbn [ldel_max erase tdel_max] in *. by rewrite IHr.
Qed.

Lemma erase_lremove_root s : erase (lremove_root s) = tremove_root (erase s).
Proof.
  destruct s as [|a l x r]; [done|].
  destruct r as [|rb rl ry rr].
  - destruct l as [|lb ll ly lr]; [done|].
    cbn [lremove_root erase tremove_root].
    change (Br (erase ll) ly (erase lr)) with (erase (LNode lb ll ly lr)).
    by rewrite erase_ldel_max.
  - cbn [lremove_root erase tremove_root].
    change (Br (erase rl) ry (erase rr)) with (erase (LNode rb rl ry rr)).
    by rewrite erase_ldel_min.
Qed.

Lemma erase_lremove value s : erase (lremove value s) = tremove value (erase s).
Proof.
  induction s as [|a l IHl x r IHr]; [done|].
  cbn [lremove erase tremove].
  destruct (x >? value); [cbn [erase]; by rewrite IHl|].
  destruct (x <? value); [cbn [erase]; by rewrite IHr|].
  apply (erase_lremove_root (LNode a l x r)).
Qed.

Lemma addrs_ldel_min s : addrs (ldel_min s) `sublist_of` addrs s.
Proof.
  induction s as [|a l IHl x r IHr]; [done|].
  destruct l as [|lb ll ly lr].
  - simpl. by apply sublist_cons.
  - cbn [ldel_min addrs] in *. apply sublist_skip, sublist_app; done.
Qed.

Lemma addrs_ldel_max s : addrs (ldel_max s) `sublist_of` addrs s.
Proof.
  induction s as [|a l IHl x r IHr]; [done|].
  destruct r as [|rb rl ry rr].
  - simpl. apply sublist_cons. rewrite app_nil_r. done.
  - cbn [ldel_max addrs] in *. apply sublist_skip, sublist_app; done.
Qed.

Lemma addrs_lremove_root s : addrs (lremove_root s) `sublist_of` addrs s.
Proof.
  destruct s as [|a l x r]; [done|].
  destruct r as [|rb rl ry rr].
  - destruct l as [|lb ll ly lr]; [apply sublist_nil_l|].
    cbn [lremove_root addrs]. apply sublist_skip, sublist_app; [|done].
    apply (addrs_ldel_max (LNode lb ll ly lr)).
  - cbn [lremove_root addrs]. apply sublist_skip, sublist_app; [done|].
    apply (addrs_ldel_min (LNode rb rl ry rr)).
Qed.

Lemma addrs_lremove value s : addrs (lremove value s) `sublist_of` addrs s.
Proof.
  induction s as [|a l IHl x r IHr]; [done|].
  cbn [lremove].
  destruct (x >? value); [cbn [addrs]; by apply sublist_skip, sublist_app|].
  destruct (x <? value); [cbn [addrs]; by apply sublist_skip, sublist_app|].
  apply (addrs_lremove_root (LNode a l x r)).
Qed.

Lemma addrs_lfind value s a : a ∈ addrs (lfind value s) → a ∈ addrs s.
Proof.
  induction s as [|b l IHl x r IHr]; [done|]. cbn [lfind].
  destruct (x >? value).
  { intros H. simpl. rewrite elem_of_cons, elem_of_app. auto. }
  destruct (x <? value); [|done].
  intros H. simpl. rewrite elem_of_cons, elem_of_app. auto.
Qed.

Lemma lroot_lremove value s :
  relinks value (erase s) = true → lroot (lremove value s) = lroot s.
Proof.
  destruct s as [|a l x r]; [done|]. cbn [lremove erase relinks].
  destruct (x >? value); [done|]. destruct (x <? value); [done|].
  destruct r; [|done]. by destruct l.
Qed.

Lemma remove_find_owns s : ∀ fuel value m,
  owns (cells m) s → (height (erase s) < fuel)%nat →
  remove_find fuel value (lroot s) m = Ok (lroot (lfind value s), m).
Proof.
  induction s as [|a l IHl x r IHr]; intros [|fuel] value m Ho Hf; simpl in *;
    try lia; [done|].
  destruct Ho as (Ha & Hl & Hr).
  unfold bind. rewrite (deref_live _ _ _ Ha). simpl.
  destruct (x >? value); [apply IHl; [done|lia]|].
  destruct (x <? value); [apply IHr; [done|lia]|done].
Qed.

Lemma owns_lfind c value s : owns c s → owns c (lfind value s).
Proof.
  induction s as [|a l IHl x r IHr]; [done|]. intros (Ha & Hl & Hr). cbn [lfind].
  destruct (x >? value); [by apply IHl|]. destruct (x <? value); [by apply IHr|done].
Qed.

Lemma NoDup_lfind value s : NoDup (addrs s) → NoDup (addrs (lfind value s)).
Proof.
  induction s as [|a l IHl x r IHr]; [done|]. cbn [lfind]. intros Hnd.
  pose proof Hnd as [_ (Hl & _ & Hr)%NoDup_app]%NoDup_cons.
  destruct (x >? value); [by apply IHl|]. destruct (x <? value); [by apply IHr|done].
Qed.

(** The descent towards the parent of the leftmost node, and what replacing
    that node by its right subtree does to the layout. *)
Lemma descend_left_owns cl : ∀ cb cy cr fuel m,
  cl ≠ LNil →
  owns (cells m) (LNode cb cl cy cr) → NoDup (addrs (LNode cb cl cy cr)) →
  (height (erase cl) ≤ fuel)%nat →
  ∃ pb py pr sb sr,
    descend_left fuel (Some cb) m = Ok (Some pb, m) ∧
    cells m !! pb = Some (mkNode py (lroot pr) (Some sb)) ∧
    cells m !! sb = Some (mkNode (tmin cy (erase cl)) (lroot sr) None) ∧
    pb ≠ sb ∧ pb ∈ addrs (LNode cb cl cy cr) ∧ sb ∈ addrs cl ∧
    (min_has_child (erase cl) = true → sr ≠ LNil) ∧
    (∀ c', c' !! pb = Some (mkNode py (lroot pr) (lroot sr)) →
           (∀ a, a ∈ addrs (LNode cb cl cy cr) → a ≠ pb → a ≠ sb →
                 c' !! a = cells m !! a) →
           owns c' (ldel_min (LNode cb cl cy cr))).
Proof.
  induction cl as [|lb ll IH ly lr _]; intros cb cy cr fuel m Hne Ho Hnd Hf; [done|clear Hne].
  destruct fuel as [|fuel]; [simpl in Hf; lia|].
  destruct Ho as (Hcb & (Hlb & Hll & Hlr) & Hcr).
  cbn [addrs] in Hnd.
  apply NoDup_cons in Hnd as [Hcbn (Hndl & Hdisj & Hndr)%NoDup_app].
  apply not_elem_of_app in Hcbn as [Hcbl Hcbr].
  pose proof Hndl as [Hlbn (Hndll & Hdisjl & Hndlr)%NoDup_app]%NoDup_cons.
  apply not_elem_of_app in Hlbn as [Hlbll Hlblr].
  assert (cb ≠ lb) as Hcblb by (intros ->; apply Hcbl; by left).
  cbn [descend_left]. unfold bind at 1. rewrite (deref_live _ _ _ Hcb). cbn [left lroot].
  unfold bind at 1. rewrite (deref_live _ _ _ Hlb). cbn [left].
  destruct ll as [|llb lll lly llr].
  - (* the left child is the leftmost node *)
    exists cb, cy, cr, lb, lr. cbn [lroot erase tmin min_has_child].
    split; [done|]. split; [done|]. split; [done|]. split; [done|].
    split; [by left|]. split; [by left|]. split; [by destruct lr|].
    intros c' Hc' Hfr. cbn [ldel_min owns]. split; [done|]. split.
    + apply (owns_frame (cells m)); [|done]. intros a Ha. apply Hfr.
      * right. apply elem_of_app. left. right. by apply elem_of_app; right.
      * intros ->. apply Hcbl. right. by apply elem_of_app; right.
      * by intros ->.
    + apply (owns_frame (cells m)); [|done]. intros a Ha. apply Hfr.
      * right. by apply elem_of_app; right.
      * by intros ->.
      * intros ->. apply (Hdisj lb); [by left|done].
  - (* keep descending *)
    destruct (IH lb ly lr fuel m ltac:(done) (conj Hlb (conj Hll Hlr)) Hndl)
      as (pb & py & pr & sb & sr & Hrun & Hpb & Hsb & Hps & Hpin & Hsin & Hclean & Hrepl).
    { simpl in Hf |- *. lia. }
    exists pb, py, pr, sb, sr. cbn [lroot] in *.
    split; [exact Hrun|]. split; [done|]. split; [done|]. split; [done|].
    split; [right; by apply elem_of_app; left|].
    split; [right; by apply elem_of_app; left|]. split; [done|].
    intros c' Hc' Hfr.
    assert (sb ∈ addrs (LNode lb (LNode llb lll lly llr) ly lr)) as Hsin'.
    { right. by apply elem_of_app; left. }
    change (ldel_min (LNode cb (LNode lb (LNode llb lll lly llr) ly lr) cy cr))
      with (LNode cb (ldel_min (LNode lb (LNode llb lll lly llr) ly lr)) cy cr).
    cbn [owns]. split; [|split].
    + rewrite Hfr; [done|by left| |]; intros ->; by apply Hcbl.
    + apply Hrepl; [done|]. intros a Ha. apply Hfr. right. by apply elem_of_app; left.
    + apply (owns_frame (cells m)); [|done]. intros a Ha. apply Hfr.
      * right. by apply elem_of_app; right.
      * intros ->. by apply (Hdisj pb).
      * intros ->. by apply (Hdisj sb).
Qed.

(** The mirror image: towards the parent of the rightmost node. *)
Lemma descend_right_owns cr : ∀ cb cl cy fuel m,
  cr ≠ LNil →
  owns (cells m) (LNode cb cl cy cr) → NoDup (addrs (LNode cb cl cy cr)) →
  (height (erase cr) ≤ fuel)%nat →
  ∃ pb py pl sb sl,
    descend_right fuel (Some cb) m = Ok (Some pb, m) ∧
    cells m !! pb = Some (mkNode py (Some sb) (lroot pl)) ∧
    cells m !! sb = Some (mkNode (tmax cy (erase cr)) None (lroot sl)) ∧
    pb ≠ sb ∧ pb ∈ addrs (LNode cb cl cy cr) ∧ sb ∈ addrs cr ∧
    (max_has_child (erase cr) = true → sl ≠ LNil) ∧
    (∀ c', c' !! pb = Some (mkNode py (lroot sl) (lroot pl)) →
           (∀ a, a ∈ addrs (LNode cb cl cy cr) → a ≠ pb → a ≠ sb →
                 c' !! a = cells m !! a) →
           owns c' (ldel_max (LNode cb cl cy cr))).
Proof.
  induction cr as [|rb rl _ ry rr IH]; intros cb cl cy fuel m Hne Ho Hnd Hf; [done|clear Hne].
  destruct fuel as [|fuel]; [simpl in Hf; lia|].
  destruct Ho as (Hcb & Hcl & (Hrb & Hrl & Hrr)).
  cbn [addrs] in Hnd.
  apply NoDup_cons in Hnd as [Hcbn (Hndl & Hdisj & Hndr)%NoDup_app].
  apply not_elem_of_app in Hcbn as [Hcbl Hcbr].
  pose proof Hndr as [Hrbn (Hndrl & Hdisjr & Hndrr)%NoDup_app]%NoDup_cons.
  apply not_elem_of_app in Hrbn as [Hrbrl Hrbrr].
  assert (cb ≠ rb) as Hcbrb by (intros ->; apply Hcbr; by left).
  cbn [descend_right]. unfold bind at 1. rewrite (deref_live _ _ _ Hcb). cbn [right lroot].
  unfold bind at 1. rewrite (deref_live _ _ _ Hrb). cbn [right].
  destruct rr as [|rrb rrl rry rrr].
  - (* the right child is the rightmost node *)
    exists cb, cy, cl, rb, rl. cbn [lroot erase tmax max_has_child].
    split; [done|]. split; [done|]. split; [done|]. split; [done|].
    split; [by left|]. split; [by left|]. split; [by destruct rl|].
    intros c' Hc' Hfr. cbn [ldel_max owns]. split; [done|]. split.
    + apply (owns_frame (cells m)); [|done]. intros a Ha. apply Hfr.
      * right. by apply elem_of_app; left.
      * by intros ->.
      * intros ->. apply (Hdisj rb); [done|by left].
    + apply (owns_frame (cells m)); [|done]. intros a Ha. apply Hfr.
      * right. apply elem_of_app. right. right. by apply elem_of_app; left.
      * intros ->. apply Hcbr. right. by apply elem_of_app; left.
      * by intros ->.
  - (* keep descending *)
    destruct (IH rb rl ry fuel m ltac:(done) (conj Hrb (conj Hrl Hrr)) Hndr)
      as (pb & py & pl & sb & sl & Hrun & Hpb & Hsb & Hps & Hpin & Hsin & Hclean & Hrepl).
    { simpl in Hf |- *. lia. }
    exists pb, py, pl, sb, sl. cbn [lroot] in *.
    split; [exact Hrun|]. split; [done|]. split; [done|]. split; [done|].
    split; [right; by apply elem_of_app; right|].
    split; [right; by apply elem_of_app; right|]. split; [done|].
    intros c' Hc' Hfr.
    assert (sb ∈ addrs (LNode rb rl ry (LNode rrb rrl rry rrr))) as Hsin'.
    { right. by apply elem_of_app; right. }
    change (ldel_max (LNode cb cl cy (LNode rb rl ry (LNode rrb rrl rry rrr))))
      with (LNode cb cl cy (ldel_max (LNode rb rl ry (LNode rrb rrl rry rrr)))).
    cbn [owns]. split; [|split].
    + rewrite Hfr; [done|by left| |]; intros ->; by apply Hcbr.
    + apply (owns_frame (cells m)); [|done]. intros a Ha. apply Hfr.
      * right. by apply elem_of_app; left.
      * intros ->. by apply (Hdisj pb).
      * intros ->. by apply (Hdisj sb).
    + apply Hrepl; [done|]. intros a Ha. apply Hfr. right. by apply elem_of_app; right.
Qed.

Lemma set_data_live m a n v :
  cells m !! a = Some n →
  set_data (Some a) v m
  = Ok (tt, mkMemory (<[a := mkNode v (right n) (left n)]> (cells m)) (brk m)).
Proof. apply store_live. Qed.

Lemma set_right_live m a n q :
  cells m !! a = Some n →
  set_right (Some a) q m
  = Ok (tt, mkMemory (<[a := mkNode (data n) q (left n)]> (cells m)) (brk m)).
Proof. apply store_live. Qed.

Lemma set_left_live m a n q :
  cells m !! a = Some n →
  set_left (Some a) q m
  = Ok (tt, mkMemory (<[a := mkNode (data n) (right n) q]> (cells m)) (brk m)).
Proof. apply store_live. Qed.

Lemma delete_live m a n :
  cells m !! a = Some n →
  delete (Some a) m = Ok (tt, mkMemory (base.delete a (cells m)) (brk m)).
Proof. intros H. unfold delete. by rewrite H. Qed.

Lemma size_delete_live (c : gmap addr Node) a n :
  c !! a = Some n → S (base.size (base.delete a c)) = base.size c.
Proof.
  intros H. rewrite map_size_delete_Some by done.
  pose proof (map_size_ne_0_lookup_2 c a (mk_is_Some _ _ H)). lia.
Qed.

Lemma size_insert_live (c : gmap addr Node) a n n' :
  c !! a = Some n → base.size (<[a := n']> c) = base.size c.
Proof. intros H. by apply map_size_insert_Some. Qed.

(** What the body of [remove] does once the target is found: in every case
    it returns true, decrements the counter and releases one cell inside the
    target's subtree; when it writes the link of the released node, the store
    holds the spliced subtree. *)
Lemma remove_at_target m this value a l x r :
  remove_find (budget m) value (m_root this) m = Ok (Some a, m) →
  owns (cells m) (LNode a l x r) → NoDup (addrs (LNode a l x r)) →
  ∃ c', remove this value m = Ok ((true, decr_size this), mkMemory c' (brk m)) ∧
        S (base.size c') = base.size (cells m) ∧
        (∀ a', a' ∉ addrs (LNode a l x r) → c' !! a' = cells m !! a') ∧
        (relinks_root (erase (LNode a l x r)) = true →
         owns c' (lremove_root (LNode a l x r))).
Proof.
  intros Hfind Ho Hnd.
  pose proof (owns_budget m _ Ho Hnd) as Hfuel.
  pose proof Ho as (Ha & Hl & Hr).
  pose proof Hnd as [Han (Hndl & Hdisj & Hndr)%NoDup_app]%NoDup_cons.
  apply not_elem_of_app in Han as [Hal Har].
  unfold remove. unfold bind at 1. unfold get_budget.
  unfold bind at 1. rewrite Hfind.
  unfold bind at 1. rewrite (deref_live _ _ _ Ha). cbn [right left].
  destruct r as [|rb rl ry rr].
  - destruct l as [|lb ll ly lr].
    + (* no children: the target is released, its link stays *)
      cbn [lroot]. exists (base.delete a (cells m)). split; [|split; [|split]].
      * unfold bind. by rewrite (delete_live _ _ _ Ha).
      * by eapply size_delete_live.
      * intros a' Ha'. rewrite lookup_delete_ne; [done|]. intros ->. apply Ha'. by left.
      * done.
    + cbn [lroot]. destruct Hl as (Hlb & Hll & Hlr).
      pose proof Hndl as [Hlbn (Hndll & Hdisjl & Hndlr)%NoDup_app]%NoDup_cons.
      assert (a ≠ lb) as Halb by (intros ->; apply Hal; by left).
      unfold bind at 1. rewrite (deref_live _ _ _ Hlb). cbn [left data right].
      destruct lr as [|lrb lrl lry lrr].
      * (* the left child is the predecessor: the target's left link is rewritten *)
        cbn [lroot].
        set (c1 := <[a := mkNode ly None (Some lb)]> (cells m)).
        set (c2 := <[a := mkNode ly None (lroot ll)]> c1).
        exists (base.delete lb c2). split; [|split; [|split]].
        -- unfold bind at 1. rewrite (set_data_live _ _ _ _ Ha). cbn [right left lroot].
           fold c1. unfold bind at 1.
           rewrite (set_left_live (mkMemory c1 (brk m)) a (mkNode ly None (Some lb)))
             by apply lookup_insert_eq.
           cbn [data right cells brk]. fold c2. unfold bind at 1.
           rewrite (delete_live (mkMemory c2 (brk m)) lb (mkNode ly None (lroot ll))).
           { done. }
           subst c2 c1. cbn [cells]. by rewrite !lookup_insert_ne.
        -- rewrite (size_delete_live c2 lb (mkNode ly None (lroot ll))).
           { subst c2 c1. rewrite !map_size_insert_Some; [done|by rewrite Ha|].
             by rewrite lookup_insert_eq. }
           subst c2 c1. by rewrite !lookup_insert_ne.
        -- intros a' Ha'.
           assert (a' ≠ a) by (intros ->; apply Ha'; by left).
           assert (a' ≠ lb) by (intros ->; apply Ha'; in_addrs).
           subst c2 c1. by rewrite lookup_delete_ne, !lookup_insert_ne.
        -- intros _. cbn [lremove_root erase tmax ldel_max owns]. subst c2 c1.
           split; [|split; [|done]].
           ++ rewrite lookup_delete_ne by done. apply lookup_insert_eq.
           ++ apply (owns_frame (cells m)); [|done]. intros a' Ha'.
              assert (a' ≠ a) by (intros ->; apply Hal; in_addrs).
              assert (a' ≠ lb) by (intros ->; apply Hlbn; in_addrs).
              by rewrite lookup_delete_ne, !lookup_insert_ne.
      * (* the predecessor sits at the end of the right chain *)
        destruct (descend_right_owns (LNode lrb lrl lry lrr) lb ll ly (budget m) m)
          as (pb & py & pl & sb & sl & Hrun & Hpb & Hsb & Hps & Hpin & Hsin & Hclean & Hrepl).
        { done. }
        { by split. }
        { done. }
        { simpl in Hfuel |- *. lia. }
        assert (sb ∈ addrs (LNode lb ll ly (LNode lrb lrl lry lrr))) as Hsin'.
        { right. by apply elem_of_app; right. }
        assert (a ≠ pb) as Hapb by (by intros ->).
        assert (a ≠ sb) as Hasb by (by intros ->).
        set (smax := tmax ly (erase (LNode lrb lrl lry lrr))) in *.
        set (c1 := <[a := mkNode smax None (Some lb)]> (cells m)).
        assert (c1 !! sb = Some (mkNode smax None (lroot sl))) as Hsb1.
        { subst c1. by rewrite lookup_insert_ne. }
        assert (base.size c1 = base.size (cells m)) as Hsz1.
        { subst c1. by rewrite (size_insert_live _ _ _ _ Ha). }
        cbn [lroot]. unfold bind at 1. rewrite Hrun.
        unfold bind at 1. rewrite (deref_live _ _ _ Hpb). cbn [right].
        unfold bind at 1. rewrite (deref_live _ _ _ Hsb). cbn [data left].
        unfold bind at 1. rewrite (set_data_live _ _ _ _ Ha). cbn [right left lroot].
        fold c1.
        destruct sl as [|tb tl ty tr]; cbn [lroot] in *.
        -- (* the predecessor has no left child: released, the chain's link stays *)
           exists (base.delete sb c1). split; [|split; [|split]].
           ++ unfold bind. by rewrite (delete_live (mkMemory c1 (brk m)) _ _ Hsb1).
           ++ rewrite <- Hsz1. by eapply size_delete_live.
           ++ intros a' Ha'.
              assert (a' ≠ a) by (intros ->; apply Ha'; by left).
              assert (a' ≠ sb) by (intros ->; apply Ha'; right; apply elem_of_app; by left).
              subst c1. by rewrite lookup_delete_ne, lookup_insert_ne.
           ++ intros Hrel. cbn [erase relinks_root] in Hrel. by apply Hclean in Hrel.
        -- (* its left child takes its place *)
           set (c2 := base.delete sb c1).
           assert (c2 !! pb = Some (mkNode py (Some sb) (lroot pl))) as Hpb2.
           { subst c2 c1. by rewrite lookup_delete_ne, lookup_insert_ne. }
           exists (<[pb := mkNode py (Some tb) (lroot pl)]> c2). split; [|split; [|split]].
           ++ unfold bind at 1. rewrite (delete_live (mkMemory c1 (brk m)) _ _ Hsb1).
              cbn [cells brk]. fold c2. unfold bind.
              by rewrite (set_right_live (mkMemory c2 (brk m)) _ _ _ Hpb2).
           ++ rewrite (size_insert_live _ _ _ _ Hpb2). rewrite <- Hsz1.
              by eapply size_delete_live.
           ++ intros a' Ha'.
              assert (a' ≠ a) by (intros ->; apply Ha'; by left).
              assert (a' ≠ sb) by (intros ->; apply Ha'; right; apply elem_of_app; by left).
              assert (a' ≠ pb) by (intros ->; apply Ha'; right; apply elem_of_app; by left).
              subst c2 c1. by rewrite lookup_insert_ne, lookup_delete_ne, lookup_insert_ne.
           ++ intros _.
              change (lremove_root (LNode a (LNode lb ll ly (LNode lrb lrl lry lrr)) x LNil))
                with (LNode a (ldel_max (LNode lb ll ly (LNode lrb lrl lry lrr))) smax LNil).
              cbn [owns]. split; [|split; [|done]].
              ** subst c2 c1.
                 rewrite lookup_insert_ne, lookup_delete_ne, lookup_insert_eq by done. done.
              ** apply Hrepl; [apply lookup_insert_eq|]. intros a' Ha' Hne1 Hne2.
                 assert (a' ≠ a) by (by intros ->).
                 subst c2 c1.
                 by rewrite lookup_insert_ne, lookup_delete_ne, lookup_insert_ne.
  - cbn [lroot]. destruct Hr as (Hrb & Hrl & Hrr).
    pose proof Hndr as [Hrbn (Hndrl & Hdisjr & Hndrr)%NoDup_app]%NoDup_cons.
    assert (a ≠ rb) as Harb by (intros ->; apply Har; by left).
    unfold bind at 1. rewrite (deref_live _ _ _ Hrb). cbn [left data right].
    destruct rl as [|rlb rll rly rlr].
    + (* the right child is the successor: the target's right link is rewritten *)
      cbn [lroot].
      set (c1 := <[a := mkNode ry (Some rb) (lroot l)]> (cells m)).
      set (c2 := <[a := mkNode ry (lroot rr) (lroot l)]> c1).
      exists (base.delete rb c2). split; [|split; [|split]].
      * unfold bind at 1. rewrite (set_data_live _ _ _ _ Ha). cbn [right left lroot].
        fold c1. unfold bind at 1.
        rewrite (set_right_live (mkMemory c1 (brk m)) a (mkNode ry (Some rb) (lroot l)))
          by apply lookup_insert_eq.
        cbn [data left cells brk]. fold c2. unfold bind at 1.
        rewrite (delete_live (mkMemory c2 (brk m)) rb (mkNode ry (lroot rr) None)).
        { done. }
        subst c2 c1. cbn [cells]. by rewrite !lookup_insert_ne.
      * rewrite (size_delete_live c2 rb (mkNode ry (lroot rr) None)).
        { subst c2 c1. rewrite !map_size_insert_Some; [done|by rewrite Ha|].
          by rewrite lookup_insert_eq. }
        subst c2 c1. by rewrite !lookup_insert_ne.
      * intros a' Ha'. subst c2 c1.
        rewrite lookup_delete_ne, !lookup_insert_ne; [done|..];
          intros ->; apply Ha'; in_addrs.
      * intros _. cbn [lremove_root erase tmin ldel_min owns]. subst c2 c1.
        split; [|split].
        -- rewrite lookup_delete_ne by done. apply lookup_insert_eq.
        -- apply (owns_frame (cells m)); [|done]. intros a' Ha'.
           assert (a' ≠ a) by (by intros ->).
           assert (a' ≠ rb) by (intros ->; apply (Hdisj rb); [done|by left]).
           by rewrite lookup_delete_ne, !lookup_insert_ne.
        -- apply (owns_frame (cells m)); [|done]. intros a' Ha'.
           assert (a' ≠ a) by (intros ->; apply Har; in_addrs).
           assert (a' ≠ rb) by (intros ->; apply Hrbn; in_addrs).
           by rewrite lookup_delete_ne, !lookup_insert_ne.
    + (* the successor sits at the end of the left chain *)
      destruct (descend_left_owns (LNode rlb rll rly rlr) rb ry rr (budget m) m)
        as (pb & py & pr & sb & sr & Hrun & Hpb & Hsb & Hps & Hpin & Hsin & Hclean & Hrepl).
      { done. }
      { by split. }
      { done. }
      { simpl in Hfuel |- *. lia. }
      assert (sb ∈ addrs (LNode rb (LNode rlb rll rly rlr) ry rr)) as Hsin'.
      { right. by apply elem_of_app; left. }
      assert (a ≠ pb) as Hapb by (by intros ->).
      assert (a ≠ sb) as Hasb by (by intros ->).
      set (smin := tmin ry (erase (LNode rlb rll rly rlr))) in *.
      set (c1 := <[a := mkNode smin (Some rb) (lroot l)]> (cells m)).
      assert (c1 !! sb = Some (mkNode smin (lroot sr) None)) as Hsb1.
      { subst c1. by rewrite lookup_insert_ne. }
      assert (base.size c1 = base.size (cells m)) as Hsz1.
      { subst c1. by rewrite (size_insert_live _ _ _ _ Ha). }
      cbn [lroot]. unfold bind at 1. rewrite Hrun.
      unfold bind at 1. rewrite (deref_live _ _ _ Hpb). cbn [left].
      unfold bind at 1. rewrite (deref_live _ _ _ Hsb). cbn [data right].
      unfold bind at 1. rewrite (set_data_live _ _ _ _ Ha). cbn [right left lroot].
      fold c1.
      destruct sr as [|tb tl ty tr]; cbn [lroot] in *.
      * (* the successor has no right child: released, the chain's link stays *)
        exists (base.delete sb c1). split; [|split; [|split]].
        -- unfold bind. by rewrite (delete_live (mkMemory c1 (brk m)) _ _ Hsb1).
        -- rewrite <- Hsz1. by eapply size_delete_live.
        -- intros a' Ha'.
           assert (a' ≠ a) by (intros ->; apply Ha'; by left).
           assert (a' ≠ sb) by (intros ->; apply Ha'; right; apply elem_of_app; by right).
           subst c1. by rewrite lookup_delete_ne, lookup_insert_ne.
        -- intros Hrel. cbn [erase relinks_root] in Hrel. by apply Hclean in Hrel.
      * (* its right child takes its place *)
        set (c2 := base.delete sb c1).
        assert (c2 !! pb = Some (mkNode py (lroot pr) (Some sb))) as Hpb2.
        { subst c2 c1. by rewrite lookup_delete_ne, lookup_insert_ne. }
        exists (<[pb := mkNode py (lroot pr) (Some tb)]> c2). split; [|split; [|split]].
        -- unfold bind at 1. rewrite (delete_live (mkMemory c1 (brk m)) _ _ Hsb1).
           cbn [cells brk]. fold c2. unfold bind.
           by rewrite (set_left_live (mkMemory c2 (brk m)) _ _ _ Hpb2).
        -- rewrite (size_insert_live _ _ _ _ Hpb2). rewrite <- Hsz1.
           by eapply size_delete_live.
        -- intros a' Ha'.
           assert (a' ≠ a) by (intros ->; apply Ha'; by left).
           assert (a' ≠ sb) by (intros ->; apply Ha'; right; apply elem_of_app; by right).
           assert (a' ≠ pb) by (intros ->; apply Ha'; right; apply elem_of_app; by right).
           subst c2 c1. by rewrite lookup_insert_ne, lookup_delete_ne, lookup_insert_ne.
        -- intros _.
           change (lremove_root (LNode a l x (LNode rb (LNode rlb rll rly rlr) ry rr)))
             with (LNode a l smin (ldel_min (LNode rb (LNode rlb rll rly rlr) ry rr))).
           cbn [owns]. split; [|split].
           ++ subst c2 c1.
              rewrite lookup_insert_ne, lookup_delete_ne, lookup_insert_eq by done. done.
           ++ apply (owns_frame (cells m)); [|done]. intros a' Ha'.
              assert (a' ≠ a) by (by intros ->).
              assert (a' ≠ pb) by (intros ->; by apply (Hdisj pb)).
              assert (a' ≠ sb) by (intros ->; by apply (Hdisj sb)).
              subst c2 c1. by rewrite lookup_insert_ne, lookup_delete_ne, lookup_insert_ne.
           ++ apply Hrepl; [apply lookup_insert_eq|]. intros a' Ha' Hne1 Hne2.
              assert (a' ≠ a) by (by intros ->).
              subst c2 c1. by rewrite lookup_insert_ne, lookup_delete_ne, lookup_insert_ne.
Qed.

Lemma lfind_relinks value s :
  relinks value (erase s) = true →
  ∃ a l x r, lfind value s = LNode a l x r ∧
             relinks_root (erase (LNode a l x r)) = true.
Proof.
  induction s as [|a l IHl x r IHr]; [done|]. cbn [erase relinks lfind].
  destruct (x >? value); [done|]. destruct (x <? value); [done|].
  intros H. by exists a, l, x, r.
Qed.

Lemma lfind_found value s :
  tcontains value (erase s) = true → ∃ a l x r, lfind value s = LNode a l x r.
Proof.
  induction s as [|a l IHl x r IHr]; [done|]. cbn [erase tcontains lfind].
  destruct (x >? value); [done|]. destruct (x <? value); [done|].
  intros _. by exists a, l, x, r.
Qed.

Lemma owns_lremove value s : ∀ c c',
  owns c s → NoDup (addrs s) → relinks value (erase s) = true →
  owns c' (lremove_root (lfind value s)) →
  (∀ a, a ∈ addrs s → a ∉ addrs (lfind value s) → c' !! a = c !! a) →
  owns c' (lremove value s).
Proof.
  induction s as [|a l IHl x r IHr]; intros c c' Ho Hnd Hrel Hroot Hfr; [done|].
  destruct Ho as (Ha & Hl & Hr).
  pose proof Hnd as [Han (Hndl & Hdisj & Hndr)%NoDup_app]%NoDup_cons.
  apply not_elem_of_app in Han as [Hal Har].
  cbn [erase relinks lfind lremove] in *.
  destruct (x >? value); [|destruct (x <? value); [|done]].
  - cbn [owns]. rewrite (lroot_lremove _ _ Hrel). split; [|split].
    + rewrite Hfr; [done|by left|]. by intros ?%addrs_lfind.
    + apply (IHl c); try done. intros a' Ha'. apply Hfr. in_addrs.
    + apply (owns_frame c); [|done]. intros a' Ha'. apply Hfr; [in_addrs|].
      intros Hin%addrs_lfind. by apply (Hdisj a').
  - cbn [owns]. rewrite (lroot_lremove _ _ Hrel). split; [|split].
    + rewrite Hfr; [done|by left|]. by intros ?%addrs_lfind.
    + apply (owns_frame c); [|done]. intros a' Ha'. apply Hfr; [in_addrs|].
      intros Hin%addrs_lfind. by apply (Hdisj a').
    + apply (IHr c); try done. intros a' Ha'. apply Hfr. in_addrs.
Qed.

Lemma size_decr_small s : 0 < s ≤ SIZE_MAX → size_decr s = s - 1.
Proof. unfold size_decr, SIZE_MAX. intros H. apply Z.mod_small. lia. Qed.

(** What [remove] does when the value is found, in every case. *)
Lemma remove_found m this s value :
  tree_at m this s → tcontains value (erase s) = true →
  ∃ c', remove this value m = Ok ((true, decr_size this), mkMemory c' (brk m)) ∧
        S (base.size c') = base.size (cells m) ∧
        size (decr_size this) = size this - 1 ∧
        (∀ a, a ∉ addrs (lfind value s) → c' !! a = cells m !! a) ∧
        (relinks value (erase s) = true →
         tree_at (mkMemory c' (brk m)) (decr_size this) (lremove value s)).
Proof.
  intros (Hroot & Ho & Hnd & Hlt & Hsz & Hmax) Hc.
  destruct (lfind_found _ _ Hc) as (a & l & x & r & Hf).
  destruct (remove_at_target m this value a l x r) as (c' & Hrun & Hsize & Hfr & Hclean).
  { rewrite Hroot, (remove_find_owns s) by (done || by apply owns_budget).
    by rewrite Hf. }
  { rewrite <- Hf. by apply owns_lfind. }
  { rewrite <- Hf. by apply NoDup_lfind. }
  assert (0 < m_size this) as Hpos.
  { rewrite Hsz. destruct s; [done|]. simpl. lia. }
  exists c'. split; [done|]. split; [done|]. split; [|split].
  - unfold size, decr_size. simpl. by apply size_decr_small.
  - intros a' Ha'. apply Hfr. by rewrite <- Hf.
  - intros Hrel. unfold tree_at. cbn [m_root m_size decr_size cells brk].
    split; [by rewrite (lroot_lremove _ _ Hrel)|]. split; [|split; [|split; [|split]]].
    + apply (owns_lremove value s (cells m)); try done.
      * rewrite Hf. apply Hclean.
        destruct (lfind_relinks _ _ Hrel) as (a2 & l2 & x2 & r2 & Hf2 & Hr2).
        rewrite Hf in Hf2. by injection Hf2 as -> -> -> ->.
      * intros a' _ Ha'. apply Hfr. by rewrite <- Hf.
    + eapply sublist_NoDup; [exact Hnd|apply addrs_lremove].
    + apply Forall_forall. intros a' Ha'. rewrite Forall_forall in Hlt. apply Hlt.
      eapply elem_of_sublist; [exact Ha'|apply addrs_lremove].
    + rewrite size_decr_small by lia. rewrite erase_lremove.
      pose proof (tremove_nodes _ _ Hrel). lia.
    + rewrite size_decr_small; lia.
Qed.

(** X10.  [remove] of a value of a valid tree, on the paths that write the
    link of the released node (see [relinks]): it returns true, the size
    drops by one, the tree stays well-formed and ordered, its in-order listing
    is the old one without the value, and [contains] answers false for the
    removed value and as before for every other one. *)
Theorem remove_relinking m this t value :
  represents m this t → BST t → relinks value t = true →
  ∃ this' m' t',
    remove this value m = Ok ((true, this'), m') ∧
    size this' = size this - 1 ∧
    represents m' this' t' ∧ BST t' ∧
    values t' = filter (λ x, x ≠ value) (values t) ∧
    ∀ w, contains this' w m' = Ok (bool_decide (w ∈ values t ∧ w ≠ value), m').
Proof.
  intros (s & Ht & <-) Hbst Hrel.
  destruct (remove_found m this s value Ht (relinks_found _ _ Hrel))
    as (c' & Hrun & _ & Hsz & _ & Hclean).
  specialize (Hclean Hrel).
  pose proof (tremove_BST value _ Hbst) as Hbst'.
  eexists _, _, (tremove value (erase s)). split; [exact Hrun|]. split; [done|].
  split; [exists (lremove value s); split; [done|apply erase_lremove]|].
  split; [done|]. split; [by apply values_tremove|].
  intros w. rewrite (contains_tree_at _ _ _ _ Hclean), erase_lremove.
  rewrite tcontains_decide, values_tremove by done. do 2 f_equal.
  apply bool_decide_ext. rewrite list_elem_of_filter. tauto.
Qed.

Lemma remove_relinking_witness :
  ∃ this' m' t',
    remove example_object 5 example_memory = Ok ((true, this'), m') ∧
    size this' = size example_object - 1 ∧
    represents m' this' t' ∧ BST t' ∧
    values t' = filter (λ x, x ≠ 5) (values example_tree) ∧
    ∀ w, contains this' w m'
         = Ok (bool_decide (w ∈ values example_tree ∧ w ≠ 5), m').
Proof.
  apply (remove_relinking example_memory example_object example_tree 5).
  - example_represents.
  - apply tvalid_BST. reflexivity.
  - reflexivity.
Defined.

(** X11.  [remove] of a value that is in a valid tree, in every case: it
    returns true, decrements the size by exactly one, releases exactly one
    cell and allocates none, and never changes the root pointer, not even
    when the node released is the root. *)
Theorem remove_present m this t value :
  represents m this t → BST t → value ∈ values t →
  ∃ this' m',
    remove this value m = Ok ((true, this'), m') ∧
    size this' = size this - 1 ∧
    m_root this' = m_root this ∧
    S (base.size (cells m')) = base.size (cells m) ∧
    brk m' = brk m.
Proof.
  intros (s & Ht & <-) Hbst Hin.
  destruct (remove_found m this s value Ht (tcontains_BST _ _ Hbst Hin))
    as (c' & Hrun & Hsize & Hsz & _).
  eexists _, _. split; [exact Hrun|]. done.
Qed.

Lemma remove_present_witness :
  ∃ this' m',
    remove example_object 3 example_memory = Ok ((true, this'), m') ∧
    size this' = size example_object - 1 ∧
    m_root this' = m_root example_object ∧
    S (base.size (cells m')) = base.size (cells example_memory) ∧
    brk m' = brk example_memory.
Proof.
  apply (remove_present example_memory example_object example_tree 3).
  - example_represents.
  - apply tvalid_BST. reflexivity.
  - by_decision.
Defined.

(** ** Removing a node without children *)

Lemma remove_at_leaf m this value a :
  remove_find (budget m) value (m_root this) m = Ok (Some a, m) →
  cells m !! a = Some (mkNode value None None) →
  remove this value m
  = Ok ((true, decr_size this), mkMemory (base.delete a (cells m)) (brk m)).
Proof.
  intros Hfind Ha. unfold remove. unfold bind at 1. unfold get_budget.
  unfold bind at 1. rewrite Hfind.
  unfold bind at 1. rewrite (deref_live _ _ _ Ha). cbn [right left].
  unfold bind. by rewrite (delete_live _ _ _ Ha).
Qed.

Lemma lfind_linsert b value s :
  tcontains value (erase s) = false →
  lfind value (linsert b value s) = LNode b LNil value LNil.
Proof.
  induction s as [|a l IHl x r IHr]; cbn [erase tcontains linsert lfind].
  { intros _. assert ((value >? value) = false) as -> by lia.
    by assert ((value <? value) = false) as -> by lia. }
  assert ((x >? value) = (value <? x)) as -> by lia.
  assert ((x <? value) = (value >? x)) as -> by lia.
  destruct (value >? x) eqn:H1; [assert ((value <? x) = false) as H2 by lia|
    destruct (value <? x) eqn:H2; [|done]]; rewrite ?H2; intros Hc; cbn [lfind].
  - assert ((x >? value) = false) as -> by lia.
    assert ((x <? value) = true) as -> by lia. by apply IHr.
  - assert ((x >? value) = true) as -> by lia. by apply IHl.
Qed.

(** The search runs into the released cell. *)
Lemma contains_loop_released s : ∀ fuel value m c b,
  owns c s → NoDup (addrs s) →
  lroot (lfind value s) = Some b →
  cells m !! b = None →
  (∀ a, a ∈ addrs s → a ≠ b → cells m !! a = c !! a) →
  (height (erase s) ≤ fuel)%nat →
  contains_loop fuel value (lroot s) m = Undefined.
Proof.
  induction s as [|a l IHl x r IHr]; intros fuel value m c b Ho Hnd Hb Hgone Hsame Hf;
    [done|].
  destruct fuel as [|fuel]; [simpl in Hf; lia|].
  destruct Ho as (Ha & Hl & Hr).
  pose proof Hnd as [Han (Hndl & Hdisj & Hndr)%NoDup_app]%NoDup_cons.
  apply not_elem_of_app in Han as [Hal Har].
  cbn [lfind] in Hb. cbn [contains_loop lroot]. unfold bind.
  destruct (x >? value) eqn:H1; [|destruct (x <? value) eqn:H2].
  - assert (b ∈ addrs l) as Hbl.
    { apply (addrs_lfind value). destruct (lfind value l); [done|].
      injection Hb as ->. by left. }
    assert (a ≠ b) by (by intros ->).
    rewrite (deref_live m a (mkNode x (lroot r) (lroot l))) by (rewrite Hsame; [done|by left|done]).
    cbn [data left]. rewrite H1.
    apply (IHl _ _ _ c b); try done; [|simpl in Hf; lia].
    intros a' Ha'. apply Hsame. in_addrs.
  - assert (b ∈ addrs r) as Hbr.
    { apply (addrs_lfind value). destruct (lfind value r); [done|].
      injection Hb as ->. by left. }
    assert (a ≠ b) by (by intros ->).
    rewrite (deref_live m a (mkNode x (lroot r) (lroot l))) by (rewrite Hsame; [done|by left|done]).
    cbn [data right]. rewrite H1, H2.
    apply (IHr _ _ _ c b); try done; [|simpl in Hf; lia].
    intros a' Ha'. apply Hsame. in_addrs.
  - injection Hb as ->. unfold deref. by rewrite Hgone.
Qed.

(** X12.  Inserting a value that is not in the tree and removing it again:
    both calls return true and the size is back where it was, but the new
    node was a node without children, so [remove] released it and left the
    link to it in place: the following [contains] of that value reads
    released memory.  This holds for every well-formed valid tree. *)
Theorem insert_then_remove_dangles m this t value :
  represents m this t → BST t → value ∉ values t → size this < SIZE_MAX →
  ∃ this1 m1 this2 m2,
    insert this value m = Ok ((true, this1), m1) ∧
    remove this1 value m1 = Ok ((true, this2), m2) ∧
    size this2 = size this ∧
    cells m2 !! brk m = None ∧
    contains this2 value m2 = Undefined.
Proof.
  intros (s & Ht & <-) Hbst Hnin Hroom.
  assert (tcontains value (erase s) = false) as Hc.
  { destruct (tcontains value (erase s)) eqn:Hc; [|done].
    by apply tcontains_values in Hc. }
  destruct (insert_tree_at m this s value Ht) as (this1 & m1 & Hrun & Ht1 & _ & Ha & _).
  { by intros _. }
  rewrite Hc in Hrun. destruct (Ha Hc) as [Hsz1 Hbrk1].
  set (s1 := linsert (brk m) value s) in *.
  pose proof (lfind_linsert (brk m) value s Hc) as Hfind. fold s1 in Hfind.
  pose proof Ht1 as (Hroot1 & Ho1 & Hnd1 & Hlt1 & Hsize1 & Hmax1).
  assert (cells m1 !! brk m = Some (mkNode value None None)) as Hcell.
  { pose proof (owns_lfind _ value _ Ho1) as Hof. rewrite Hfind in Hof. apply Hof. }
  assert (remove this1 value m1
          = Ok ((true, decr_size this1),
                mkMemory (base.delete (brk m) (cells m1)) (brk m1))) as Hrem.
  { apply remove_at_leaf; [|done].
    rewrite Hroot1, (remove_find_owns s1) by (done || by apply owns_budget).
    by rewrite Hfind. }
  assert (0 ≤ m_size this).
  { destruct Ht as (_ & _ & _ & _ & Hsz & _). lia. }
  eexists this1, m1, _, _. split; [done|]. split; [exact Hrem|]. split; [|split].
  - unfold size, decr_size in *. cbn [m_size]. rewrite Hsz1.
    rewrite size_decr_small; [lia|]. unfold SIZE_MAX in *. lia.
  - cbn [cells]. apply lookup_delete_eq.
  - unfold contains, bind, get_budget. cbn [decr_size m_root]. rewrite Hroot1.
    apply (contains_loop_released s1 _ value _ (cells m1) (brk m)); try done.
    + by rewrite Hfind.
    + cbn [cells]. apply lookup_delete_eq.
    + intros a _ Hne. cbn [cells]. by rewrite lookup_delete_ne.
    + unfold budget. cbn [cells].
      pose proof (size_delete_live (cells m1) (brk m) _ Hcell) as Hs.
      pose proof (owns_budget m1 s1 Ho1 Hnd1) as Hb. unfold budget in Hb. lia.
Qed.

Lemma insert_then_remove_dangles_witness :
  ∃ this1 m1 this2 m2,
    insert example_object 4 example_memory = Ok ((true, this1), m1) ∧
    remove this1 4 m1 = Ok ((true, this2), m2) ∧
    size this2 = size example_object ∧
    cells m2 !! brk example_memory = None ∧
    contains this2 4 m2 = Undefined.
Proof.
  apply (insert_then_remove_dangles example_memory example_object example_tree 4).
  - example_represents.
  - apply tvalid_BST. reflexivity.
  - by_decision.
  - unfold SIZE_MAX. simpl. lia.
Defined.



(** X14.  After a move the source is a well-formed empty tree of its own:
    its destructor does nothing, and inserting into it starts a fresh tree
    without touching the tree that was moved out. *)
Theorem moved_from_is_empty_tree m other t v :
  represents m other t →
  represents m (fst (BinarySearchTree_move other)) t ∧
  represents m (snd (BinarySearchTree_move other)) Leaf ∧
  destroy (snd (BinarySearchTree_move other)) m = Ok (tt, m) ∧
  ∃ other1 m1,
    insert (snd (BinarySearchTree_move other)) v m = Ok ((true, other1), m1) ∧
    represents m1 other1 (Br Leaf v Leaf) ∧
    represents m1 (fst (BinarySearchTree_move other)) t.
Proof.
  intros (s & Ht & <-). destruct other as [root sz]. cbn [BinarySearchTree_move fst snd].
  change (mkBST None 0) with BinarySearchTree_default.
  split; [by exists s|]. split; [exists LNil; split; [apply tree_at_default|done]|].
  split; [by destruct m|].
  destruct (insert_grows m _ _ v (tree_at_default m)) as (other1 & m1 & Hrun & Ht1 & Hg).
  { intros _. unfold SIZE_MAX. simpl. lia. }
  exists other1, m1. split; [exact Hrun|]. split; [by eexists|].
  exists s. split; [|done]. destruct Hg as (Hbrk & _ & Hfr).
  apply (tree_at_frame m); [done| |done].
  intros a Hin. apply Hfr; [apply not_elem_of_nil|].
  destruct Ht as (_ & _ & _ & Hlt & _). rewrite Forall_forall in Hlt. by apply Hlt.
Qed.

Lemma moved_from_is_empty_tree_witness :
  represents example_memory (fst (BinarySearchTree_move example_object)) example_tree ∧
  represents example_memory (snd (BinarySearchTree_move example_object)) Leaf ∧
  destroy (snd (BinarySearchTree_move example_object)) example_memory
  = Ok (tt, example_memory) ∧
  ∃ other1 m1,
    insert (snd (BinarySearchTree_move example_object)) 9 example_memory
      = Ok ((true, other1), m1) ∧
    represents m1 other1 (Br Leaf 9 Leaf) ∧
    represents m1 (fst (BinarySearchTree_move example_object)) example_tree.
Proof.
  apply (moved_from_is_empty_tree example_memory example_object example_tree 9).
  example_represents.
Defined.
